(** * piker: resilient websocket channel, JSON-RPC multiplexer and
    clearing messages

  A shallow embedding of [piker/data/_web_bs.py] (the auto-reconnecting
  websocket wrapper [NoBsWs] and the JSON-RPC session built on it) and of
  the message declarations of [piker/clearing/_messages.py], with the
  properties the specification states about them. *)

From Stdlib Require Import ZArith QArith Ascii String List Bool Lia.
From stdpp Require Import gmap strings list fin_maps.
Set Warnings "-register-all".
Import ListNotations.
Local Open Scope string_scope.
Local Open Scope Z_scope.

(* ===================================================================== *)
(** * Python values, exceptions and call outcomes *)
(* ===================================================================== *)

Module Py.

(** The JSON-shaped fragment of Python values that travels through the
    channel ([data: Any], [params: dict], decoded frames). *)
Inductive pyval : Type :=
| PNone
| PBool (b : bool)
| PInt (z : Z)
| PFloat (q : Q)
| PStr (s : string)
| PList (items : list pyval)
| PDict (items : list (string * pyval)).

(** Exception classes.  The first five are the members of
    [NoBsWs.recon_errors]; [PyException msg] is a plain
    [Exception(msg)]; [OtherError cls] stands for any class that is
    neither listed here nor a subclass of a listed one. *)
Inductive exn : Type :=
| ConnectionClosed
| DisconnectionTimeout
| ConnectionRejected
| HandshakeError
| ConnectionTimeout
| RuntimeError
| AssertionError
| TypeError
| KeyError
| AttributeError
| PyException (msg : string)
| OtherError (cls : string).

(** What a call can do: return a value, raise, or still be running when
    the fuel of a [while True] loop is used up. *)
Inductive outcome (A : Type) : Type :=
| Return (a : A)
| Raise (e : exn)
| OutOfFuel.

Arguments Return {A} a.
Arguments Raise {A} e.
Arguments OutOfFuel {A}.

(** The [json] module, as far as the code uses it.  It is a library, not
    part of the repository, so it is taken as a parameter. *)
Record json_module : Type := {
  dumps : pyval -> exn + string;          (* json.dumps(v) *)
  loads : string -> exn + pyval;          (* json.loads(text) *)
  dumps_indent4 : pyval -> exn + string   (* json.dumps(v, indent=4) *)
}.

(** A fragment of JSON on which encoding and decoding are known:
    [None], [True] and [False]. *)
Definition tiny_json : json_module :=
  {| dumps := fun v =>
       match v with
       | PNone => inr "null"
       | PBool true => inr "true"
       | PBool false => inr "false"
       | _ => inl TypeError
       end;
     loads := fun text =>
       if String.eqb text "null" then inr PNone
       else if String.eqb text "true" then inr (PBool true)
       else if String.eqb text "false" then inr (PBool false)
       else inl (OtherError "JSONDecodeError");
     dumps_indent4 := fun v =>
       match v with
       | PNone => inr "null"
       | PBool true => inr "true"
       | PBool false => inr "false"
       | PDict [] => inr "{}"
       | _ => inl TypeError
       end |}.

End Py.
Export Py.

(* ===================================================================== *)
(** * [NoBsWs]: the auto-reconnecting channel *)
(* ===================================================================== *)

Module WebBs.

(** [recon_errors]: the classes caught by [except self.recon_errors]. *)
Definition recon_errors (e : exn) : bool :=
  match e with
  | ConnectionClosed | DisconnectionTimeout | ConnectionRejected
  | HandshakeError | ConnectionTimeout => true
  | _ => false
  end.

(** The classes caught around [self._stack.aclose()]:
    [except (DisconnectionTimeout, RuntimeError)]. *)
Definition close_retry_errors (e : exn) : bool :=
  match e with
  | DisconnectionTimeout | RuntimeError => true
  | _ => false
  end.

(** Handle of an open [WebSocketConnection]. *)
Definition conn : Type := nat.

(** What the outside world answers to the call made at a given instant.
    Every external call (closing the exit stack, opening the websocket,
    entering the fixture, sending, receiving) advances the clock by one
    and reads its own field of the reply of that instant. *)
Record reply : Type := {
  aclose_r : option exn;       (* await self._stack.aclose() *)
  open_r : exn + conn;         (* open_websocket_url(self.url) *)
  fixture_r : exn + pyval;     (* value yielded by self.fixture(self) *)
  send_r : option exn;         (* self._ws.send_message(text) *)
  get_r : exn + string         (* self._ws.get_message() *)
}.

Definition world : Type := nat -> reply.

(** Observable effects, recorded with their results. *)
Inductive event : Type :=
| EvAclose (r : option exn)
| EvSleep (seconds : Q)
| EvOpen (url : string) (r : exn + conn)
| EvFixture (r : exn + pyval)
| EvSend (c : conn) (text : string) (r : option exn)
| EvGet (c : conn) (r : exn + string)
| EvLogInfo                      (* log.info('Connection success: ...') *)
| EvLogError (i : Z) (e : exn)   (* log.error('... retry attempt {i}') *)
| EvLogException.                (* log.exception('ws connection fail...') *)

(** The fields of a [NoBsWs] object, the clock of the world and the
    history of effects (newest first). *)
Record NoBsWs : Type := mkNoBsWs {
  url : string;
  fixture : bool;          (* self.fixture is not None *)
  _ws : option conn;       (* self._ws, None until the first connect *)
  clock : nat;
  history : list event
}.

Definition M (A : Type) : Type := NoBsWs -> outcome A * NoBsWs.

Definition ret {A} (a : A) : M A := fun s => (Return a, s).
Definition raise {A} (e : exn) : M A := fun s => (Raise e, s).
Definition out_of_fuel {A} : M A := fun s => (OutOfFuel, s).

Definition bind {A B} (m : M A) (k : A -> M B) : M B :=
  fun s =>
    match m s with
    | (Return a, s1) => k a s1
    | (Raise e, s1) => (Raise e, s1)
    | (OutOfFuel, s1) => (OutOfFuel, s1)
    end.

(** [try: m  except <classes in handles> as err: h err]; an exception
    raised by the handler itself is not caught again. *)
Definition try_except {A} (m : M A) (handles : exn -> bool)
    (h : exn -> M A) : M A :=
  fun s =>
    match m s with
    | (Raise e, s1) => if handles e then h e s1 else (Raise e, s1)
    | r => r
    end.

Declare Scope py_scope.
Delimit Scope py_scope with py.
Notation "x <- m ;; k" := (bind m (fun x => k))
  (at level 100, m at next level, right associativity) : py_scope.
Notation "m ;;; k" := (bind m (fun _ => k))
  (at level 100, right associativity) : py_scope.
Local Open Scope py_scope.

Definition lift {A} (r : exn + A) : M A :=
  match r with inl e => raise e | inr a => ret a end.

Definition emit (ev : event) : M unit :=
  fun s => (Return tt,
            mkNoBsWs (url s) (fixture s) (_ws s) (clock s) (ev :: history s)).

Definition tick : M unit :=
  fun s => (Return tt,
            mkNoBsWs (url s) (fixture s) (_ws s) (S (clock s)) (history s)).

Definition set_ws (c : conn) : M unit :=
  fun s => (Return tt,
            mkNoBsWs (url s) (fixture s) (Some c) (clock s) (history s)).

Definition get_state : M NoBsWs := fun s => (Return s, s).

(** [trio.sleep(0.5)] *)
Definition half_second : Q := 1 # 2.
Definition sleep (seconds : Q) : M unit := emit (EvSleep seconds).

Section Channel.

Variable json : json_module.
Variable w : world.

(** ** External calls *)

Definition stack_aclose : M unit :=
  s <- get_state ;;
  let r := aclose_r (w (clock s)) in
  tick ;;; emit (EvAclose r) ;;;
  match r with Some e => raise e | None => ret tt end.

Definition open_websocket_url : M conn :=
  s <- get_state ;;
  let r := open_r (w (clock s)) in
  tick ;;; emit (EvOpen (url s) r) ;;; lift r.

Definition enter_fixture : M pyval :=
  s <- get_state ;;
  let r := fixture_r (w (clock s)) in
  tick ;;; emit (EvFixture r) ;;; lift r.

Definition send_message (c : conn) (text : string) : M unit :=
  s <- get_state ;;
  let r := send_r (w (clock s)) in
  tick ;;; emit (EvSend c text r) ;;;
  match r with Some e => raise e | None => ret tt end.

Definition get_message (c : conn) : M string :=
  s <- get_state ;;
  let r := get_r (w (clock s)) in
  tick ;;; emit (EvGet c r) ;;; lift r.

(** ** [_connect] *)

(** Lines 72-78: close the exit stack, retrying after half a second on
    [DisconnectionTimeout] or [RuntimeError]. *)
Fixpoint close_loop (fuel : nat) : M unit :=
  match fuel with
  | O => out_of_fuel
  | S fuel' =>
      try_except stack_aclose close_retry_errors
        (fun _ => sleep half_second ;;; close_loop fuel')
  end.

(** Lines 83-96: the body of the [try] of one attempt. *)
Definition connect_attempt : M conn :=
  c <- open_websocket_url ;;
  set_ws c ;;;
  s <- get_state ;;
  (if fixture s
   then (r <- enter_fixture ;;
         match r with
         | PNone => ret tt
         | _ => raise AssertionError      (* assert ret is None *)
         end)
   else ret tt) ;;;
  emit EvLogInfo ;;;
  s' <- get_state ;;
  match _ws s' with
  | Some c' => ret c'
  | None => raise AttributeError
  end.

(** Lines 81-108: [for i in range(tries): ... else: raise last_err],
    with [remaining] iterations left; [raise None] is a [TypeError]. *)
Fixpoint connect_attempts (remaining : nat) (i : Z)
    (last_err : option exn) : M conn :=
  match remaining with
  | O =>
      emit EvLogException ;;;
      match last_err with
      | Some e => raise e
      | None => raise TypeError
      end
  | S remaining' =>
      try_except connect_attempt recon_errors
        (fun err =>
           emit (EvLogError i err) ;;;
           sleep half_second ;;;
           connect_attempts remaining' (i + 1) (Some err))
  end.

Definition default_tries : Z := 1000.

Definition _connect (fuel : nat) (tries : Z) : M conn :=
  close_loop fuel ;;;
  connect_attempts (Z.to_nat tries) 0 None.

(** ** [send_msg] and [recv_msg] *)

(** [self._ws.send_message(json.dumps(data))] *)
Definition ws_send (data : pyval) : M unit :=
  s <- get_state ;;
  match _ws s with
  | None => raise AttributeError
  | Some c => text <- lift (dumps json data) ;; send_message c text
  end.

(** [json.loads(await self._ws.get_message())] *)
Definition ws_recv : M pyval :=
  s <- get_state ;;
  match _ws s with
  | None => raise AttributeError
  | Some c => text <- get_message c ;; lift (loads json text)
  end.

Fixpoint send_msg (fuel : nat) (data : pyval) : M unit :=
  match fuel with
  | O => out_of_fuel
  | S fuel' =>
      try_except (ws_send data) recon_errors
        (fun _ => _connect fuel' default_tries ;;; send_msg fuel' data)
  end.

Fixpoint recv_msg (fuel : nat) : M pyval :=
  match fuel with
  | O => out_of_fuel
  | S fuel' =>
      try_except ws_recv recon_errors
        (fun _ => _connect fuel' default_tries ;;; recv_msg fuel')
  end.

End Channel.

(** ** Vocabulary for statements about histories *)

(** The common shape of [send_msg] and [recv_msg]: try the operation and,
    on a class of [recon_errors], reconnect and start over. *)
Fixpoint retrying {A} (w : world) (op : M A) (fuel : nat) : M A :=
  match fuel with
  | O => out_of_fuel
  | S fuel' =>
      try_except op recon_errors
        (fun _ => _connect w fuel' default_tries ;;; retrying w op fuel')
  end.

(** From instant [t] on, closing the exit stack fails [k] times with a
    class the close loop retries, and then succeeds. *)
Definition closes_after (w : world) (t k : nat) : Prop :=
  (forall j, (j < k)%nat ->
     exists e, aclose_r (w (t + j)%nat) = Some e /\ close_retry_errors e = true) /\
  aclose_r (w (t + k)%nat) = None.

(** The events of such a close loop, newest first. *)
Fixpoint close_events (w : world) (t k : nat) : list event :=
  match k with
  | O => [EvAclose (aclose_r (w t))]
  | S k' =>
      close_events w (S t) k' ++ [EvSleep half_second; EvAclose (aclose_r (w t))]
  end.

(** The error of a failed call ([TypeError] is a placeholder for a call
    that did not fail). *)
Definition error_of {A} (r : exn + A) : exn :=
  match r with inl e => e | inr _ => TypeError end.

(** The events of [n] attempts, numbered from [i] and made from instant
    [t] on, each of which fails in [open_websocket_url]; newest first. *)
Fixpoint failed_attempts (w : world) (u : string) (t : nat) (i : Z) (n : nat)
    : list event :=
  match n with
  | O => []
  | S n' =>
      failed_attempts w u (S t) (i + 1) n' ++
      [EvSleep half_second; EvLogError i (error_of (open_r (w t)));
       EvOpen u (open_r (w t))]
  end.

(** The error raised when [r] attempts made from instant [t] on have all
    failed. *)
Definition final_error (w : world) (t r : nat) (last : option exn) : exn :=
  match r with
  | O => match last with Some e => e | None => TypeError end
  | S r' => error_of (open_r (w (t + r')%nat))
  end.

Definition is_open (ev : event) : bool :=
  match ev with EvOpen _ _ => true | _ => false end.

(** The durations slept, in seconds, newest first. *)
Fixpoint sleep_durations (h : list event) : list Q :=
  match h with
  | [] => []
  | EvSleep seconds :: h' => seconds :: sleep_durations h'
  | _ :: h' => sleep_durations h'
  end.

(** Number of connection attempts recorded in a history. *)
Definition attempts (h : list event) : nat := length (List.filter is_open h).

(** [e] left [_connect] because the attempts ran out: the history ends
    with the error log and the sleep of the last attempt, then the
    [log.exception] of the [else] branch, and [e] is that last error. *)
Definition exhausted (e : exn) (h : list event) : Prop :=
  exists i h', h = EvLogException :: EvSleep half_second :: EvLogError i e :: h'.

(** [e] left [_connect] from inside an attempt: it is not a class of
    [recon_errors] and was raised by the opening call, by the fixture, or
    by the assertion on the fixture's value. *)
Definition attempt_raised (e : exn) (h : list event) : Prop :=
  recon_errors e = false /\
  match h with
  | EvOpen _ (inl e') :: _ => e = e'
  | EvFixture (inl e') :: _ => e = e'
  | EvFixture (inr v) :: _ => v <> PNone /\ e = AssertionError
  | _ => False
  end.

(** [e] left [_connect] from its close loop. *)
Definition close_raised (e : exn) (h : list event) : Prop :=
  close_retry_errors e = false /\
  exists h', h = EvAclose (Some e) :: h'.

Definition reconnect_raised (e : exn) (h : list event) : Prop :=
  exhausted e h \/ attempt_raised e h \/ close_raised e h.

(** The state left by an attempt whose link came up as [c] and whose
    fixture then raised [e]. *)
Definition hook_failed (s : NoBsWs) (c : conn) (e : exn) : NoBsWs :=
  mkNoBsWs (url s) true (Some c) (S (S (clock s)))
           (EvFixture (inl e) :: EvOpen (url s) (inr c) :: history s).

(** The state in which the next attempt starts once attempt [i] has
    failed with [e] in state [s1]: error logged, half a second slept. *)
Definition after_failure (i : Z) (e : exn) (s1 : NoBsWs) : NoBsWs :=
  mkNoBsWs (url s1) (fixture s1) (_ws s1) (clock s1)
           (EvSleep half_second :: EvLogError i e :: history s1).

(** "The attempt counts as failed": the loop goes on with one attempt
    less, the next index and [e] as its last error. *)
Definition counts_as_failed_attempt (w : world) (remaining : nat) (i : Z)
    (last_err : option exn) (s : NoBsWs) (c : conn) (e : exn) : Prop :=
  connect_attempts w (S remaining) i last_err s =
  connect_attempts w remaining (i + 1) (Some e)
                   (after_failure i e (hook_failed s c e)).

(** "The only exception a call propagates is the one of an exhausted
    reconnect", for a call that ended in [out] with history [h]. *)
Definition only_exhaustion_propagates {A} (out : outcome A) (h : list event)
    : Prop :=
  match out with
  | Raise e => exhausted e h
  | _ => True
  end.

(** ** Worlds and channels used in examples *)

Definition quiet : reply :=
  {| aclose_r := None; open_r := inr 1%nat; fixture_r := inr PNone;
     send_r := None; get_r := inr "null" |}.

(** A link that is down for good. *)
Definition down_world : world :=
  fun _ => {| aclose_r := None; open_r := inl ConnectionClosed;
              fixture_r := inr PNone; send_r := Some ConnectionClosed;
              get_r := inl ConnectionClosed |}.

(** The stack closes (instant 0), the link comes up (1), the fixture
    raises a [ValueError] the first time it is entered (2) and works
    afterwards. *)
Definition hook_breaks_world : world :=
  fun t =>
    match t with
    | 2%nat => {| aclose_r := None; open_r := inr 1%nat;
                  fixture_r := inl (OtherError "ValueError");
                  send_r := None; get_r := inr "null" |}
    | _ => quiet
    end.

(** The same, but the fixture fails with [ConnectionClosed]. *)
Definition hook_drops_world : world :=
  fun t =>
    match t with
    | 2%nat => {| aclose_r := None; open_r := inr 1%nat;
                  fixture_r := inl ConnectionClosed;
                  send_r := None; get_r := inr "null" |}
    | _ => quiet
    end.

(** A send fails with [ConnectionClosed] (instant 0); the reconnect closes
    the stack (1), opens the link (2) and enters the fixture (3), which
    raises a [ValueError]. *)
Definition send_then_hook_breaks_world : world :=
  fun t =>
    match t with
    | 0%nat => {| aclose_r := None; open_r := inr 1%nat;
                  fixture_r := inr PNone;
                  send_r := Some ConnectionClosed;
                  get_r := inl ConnectionClosed |}
    | 3%nat => {| aclose_r := None; open_r := inr 1%nat;
                  fixture_r := inl (OtherError "ValueError");
                  send_r := None; get_r := inr "null" |}
    | _ => quiet
    end.

(** A send fails once with [ConnectionClosed] and the link comes back. *)
Definition blip_world : world :=
  fun t =>
    match t with
    | 0%nat => {| aclose_r := None; open_r := inr 1%nat;
                  fixture_r := inr PNone;
                  send_r := Some ConnectionClosed;
                  get_r := inl ConnectionClosed |}
    | _ => quiet
    end.

Definition quiet_world : world := fun _ => quiet.

(** A channel that has never been connected, with or without fixture. *)
Definition fresh_channel (with_fixture : bool) : NoBsWs :=
  mkNoBsWs "wss://example" with_fixture None 0 [].

(** The same channel once the close loop of its first [_connect] is
    through. *)
Definition closed_channel (with_fixture : bool) : NoBsWs :=
  mkNoBsWs "wss://example" with_fixture None 1 [EvAclose None].

(** A channel as [open_autorecon_ws] hands it out: connected once. *)
Definition open_channel (with_fixture : bool) : NoBsWs :=
  mkNoBsWs "wss://example" with_fixture (Some 0%nat) 0 [].

End WebBs.

(* ===================================================================== *)
(** * JSON-RPC sessions multiplexed over a channel *)
(* ===================================================================== *)

Module JsonRpc.

(** [class JSONRPCResult(Struct)].  [result] and [error] are
    [Optional[dict]]: [PNone] is Python's [None]. *)
Record JSONRPCResult : Type := mkResult {
  jsonrpc : string;
  id : Z;
  result : pyval;
  error : pyval
}.

(** Objects a call can hand back: a plain value or a response instance. *)
Inductive pyobj : Type :=
| Plain (v : pyval)
| Response (r : JSONRPCResult).

(** An entry of [rpc_results]: [{'result': ..., 'event': trio.Event()}].
    The event lives and dies with its entry, so it is kept as the flag
    "has been set". *)
Record slot : Type := mkSlot {
  slot_result : option JSONRPCResult;
  slot_event : bool
}.

(** The variables closed over by [json_rpc] and [recv_task], together with
    the calls suspended in [event.wait()], the frames handed to
    [ws.send_msg] and the warnings logged (both newest first). *)
Record session : Type := mkSession {
  rpc_id : Z;                      (* next value of count(start_id) *)
  rpc_results : gmap Z slot;
  waiting : gset Z;
  sent : list pyval;
  warnings : list string
}.

Definition open_jsonrpc_session (start_id : Z) : session :=
  mkSession start_id ∅ ∅ [] [].

(** ** [json_rpc] *)

(** Lines 190-195: the request. *)
Definition request_frame (_id : Z) (method : string) (params : pyval) : pyval :=
  PDict [("jsonrpc", PStr "2.0"); ("id", PInt _id);
         ("method", PStr method); ("params", params)].

(** Lines 190-203, up to the first suspension: take the next id, register
    the slot and hand the request to [ws.send_msg]. *)
Definition json_rpc_request (method : string) (params : pyval)
    (st : session) : Z * session :=
  let _id := rpc_id st in
  let msg := request_frame _id method params in
  (_id,
   mkSession (rpc_id st + 1)
             (<[_id := mkSlot None false]> (rpc_results st))
             (waiting st)
             (msg :: sent st)
             (warnings st)).

(** Lines 203-205: [ws.send_msg] has finished with [sending]; when it
    returned, the call looks its event up and suspends on it. *)
Definition json_rpc_wait (_id : Z) (sending : outcome unit)
    (st : session) : outcome unit * session :=
  match sending with
  | Return _ =>
      match rpc_results st !! _id with
      | Some _ =>
          (Return tt,
           mkSession (rpc_id st) (rpc_results st) ({[_id]} ∪ waiting st)
                     (sent st) (warnings st))
      | None => (Raise KeyError, st)
      end
  | Raise e => (Raise e, st)
  | OutOfFuel => (OutOfFuel, st)
  end.

Section Session.

Variable json : json_module.

(** [dtype], the response class given to [open_jsonrpc_session], applied
    to a decoded frame (line 222, the frame's items as keywords). *)
Variable dtype : pyval -> exn + JSONRPCResult.

(** [json.dumps(msg, indent=4)] on a response instance, as evaluated
    inside the warning of [recv_task]. *)
Variable dumps_msg : JSONRPCResult -> exn + string.

(** Lines 207-214: the call runs again once its event is set. *)
Definition json_rpc_resume (_id : Z) (st : session) : outcome pyobj * session :=
  match rpc_results st !! _id with
  | None => (Raise KeyError, st)
  | Some sl =>
      let st' := mkSession (rpc_id st) (delete _id (rpc_results st))
                           (waiting st ∖ {[_id]}) (sent st) (warnings st) in
      match slot_result sl with
      | None => (Raise AttributeError, st')
      | Some ret_ =>
          match error ret_ with
          | PNone => (Return (Response ret_), st')
          | err =>
              match dumps_indent4 json err with
              | inr text => (Raise (PyException text), st')
              | inl e => (Raise e, st')
              end
          end
      end
  end.

(** ** [recv_task] *)

(** [rpc_results.setdefault(key, default)] *)
Definition setdefault (key : Z) (default : slot) (m : gmap Z slot)
    : slot * gmap Z slot :=
  match m !! key with
  | Some sl => (sl, m)
  | None => (default, <[key := default]> m)
  end.

(** Lines 222-233: one turn of [async for msg in ws]. *)
Definition recv_task_step (frame : pyval) (st : session)
    : outcome unit * session :=
  match dtype frame with
  | inl e => (Raise e, st)
  | inr msg =>
      let logged :=
        match rpc_results st !! id msg with
        | Some _ => inr (warnings st)
        | None =>
            match dumps_msg msg with
            | inr text => inr (text :: warnings st)
            | inl e => inl e
            end
        end in
      match logged with
      | inl e => (Raise e, st)
      | inr warnings' =>
          let '(res, m1) :=
            setdefault (id msg) (mkSlot None false) (rpc_results st) in
          (* res['result'] = msg; res['event'].set(): res is the entry at
             msg.id itself *)
          let m2 := <[id msg := mkSlot (Some msg) true]> m1 in
          (Return tt,
           mkSession (rpc_id st) m2 (waiting st) (sent st) warnings')
      end
  end.

(** ** Interleavings of a session *)

(** What can happen to the session state between two suspensions:
    a task calls [json_rpc], which runs up to its [event.wait()] with
    [sending] as the outcome of [ws.send_msg] (suspending only records the
    call as waiting, so it commutes with whatever runs while the send is
    in flight); [recv_task] handles one inbound frame; a call whose event
    is set runs to its end. *)
Inductive action : Type :=
| ACall (method : string) (params : pyval) (sending : outcome unit)
| ARecv (frame : pyval)
| AResume (_id : Z).

(** A suspended call may run again when its event is set. *)
Definition woken (st : session) (_id : Z) : bool :=
  bool_decide (_id ∈ waiting st) &&
  match rpc_results st !! _id with
  | Some sl => slot_event sl
  | None => false
  end.

(** One action; [None] when the action cannot happen in [st] or when it
    ends the session ([recv_task] raising). *)
Definition step (a : action) (st : session) : option session :=
  match a with
  | ACall method params sending =>
      let '(_id, st1) := json_rpc_request method params st in
      Some (snd (json_rpc_wait _id sending st1))
  | ARecv frame =>
      match recv_task_step frame st with
      | (Return _, st1) => Some st1
      | _ => None
      end
  | AResume _id =>
      if woken st _id then Some (snd (json_rpc_resume _id st)) else None
  end.

Fixpoint run (acts : list action) (st : session) : option session :=
  match acts with
  | [] => Some st
  | a :: acts' =>
      match step a st with
      | Some st1 => run acts' st1
      | None => None
      end
  end.

(** A frame is matched when its id has a slot at the time it arrives. *)
Definition matched (a : action) (st : session) : bool :=
  match a with
  | ARecv frame =>
      match dtype frame with
      | inr msg => bool_decide (is_Some (rpc_results st !! id msg))
      | inl _ => false
      end
  | _ => true
  end.

(** [run], restricted to sessions all of whose inbound frames are matched. *)
Fixpoint run_matched (acts : list action) (st : session) : option session :=
  match acts with
  | [] => Some st
  | a :: acts' =>
      if matched a st then
        match step a st with
        | Some st1 => run_matched acts' st1
        | None => None
        end
      else None
  end.

(** The requests of a schedule, in order. *)
Fixpoint calls_of (acts : list action) : list (string * pyval) :=
  match acts with
  | [] => []
  | ACall method params _ :: acts' => (method, params) :: calls_of acts'
  | _ :: acts' => calls_of acts'
  end.

(** The frames a session numbered from [first] sends for these requests. *)
Fixpoint frames_from (first : Z) (calls : list (string * pyval)) : list pyval :=
  match calls with
  | [] => []
  | (method, params) :: calls' =>
      request_frame first method params :: frames_from (first + 1) calls'
  end.

End Session.

(** Modelled from the spec: keyword construction of the default
    [dtype], [JSONRPCResult], from the items of a frame.  The [Struct] base class (piker.data.types) is
    not among the sources; following the specification, a missing
    required field ([id]) or an unknown field is a construction error and
    the fields with a declared default ([jsonrpc], [result], [error]) may
    be omitted. *)
Definition JSONRPCResult_init (frame : pyval) : exn + JSONRPCResult :=
  match frame with
  | PDict kwargs =>
      if forallb (fun kv =>
                    existsb (String.eqb (fst kv))
                            ["jsonrpc"; "id"; "result"; "error"]) kwargs
      then
        let get k := snd <$> find (fun kv => String.eqb (fst kv) k) kwargs in
        match get "id", default (PStr "2.0") (get "jsonrpc") with
        | Some (PInt i), PStr v =>
            inr (mkResult v i (default PNone (get "result"))
                          (default PNone (get "error")))
        | _, _ => inl TypeError
        end
      else inl TypeError
  | _ => inl TypeError
  end.

(** "The frame is logged and discarded, the mapping is left as it was." *)
Definition discards_unmatched (dtype : pyval -> exn + JSONRPCResult)
    (dumps_msg : JSONRPCResult -> exn + string) (frame : pyval)
    (st : session) : Prop :=
  exists st',
    recv_task_step dtype dumps_msg frame st = (Return tt, st') /\
    rpc_results st' = rpc_results st.

(** The calls that are suspended have a slot. *)
Definition waiters_have_slots (st : session) : Prop :=
  forall i, i ∈ waiting st -> is_Some (rpc_results st !! i).

(** Every slot was handed out by the counter, and the calls in [finished]
    have none. *)
Definition slots_below_counter (finished : list Z) (st : session) : Prop :=
  (forall i, is_Some (rpc_results st !! i) -> i < rpc_id st) /\
  (forall i, In i finished -> i < rpc_id st /\ rpc_results st !! i = None).

(** The calls a schedule resumes. *)
Fixpoint resumed_of (acts : list action) : list Z :=
  match acts with
  | [] => []
  | AResume _id :: acts' => _id :: resumed_of acts'
  | _ :: acts' => resumed_of acts'
  end.

(** ** Frames used in examples *)

(** A response nobody asked for: [{"id": 7, "result": None}]. *)
Definition stray_frame : pyval := PDict [("id", PInt 7); ("result", PNone)].

(** A successful response to call 0: [{"id": 0, "result": {"ok": True}}]. *)
Definition ok_frame : pyval :=
  PDict [("id", PInt 0); ("result", PDict [("ok", PBool true)])].

(** A failed response to call 0: [{"id": 0, "error": {}}]. *)
Definition error_frame : pyval := PDict [("id", PInt 0); ("error", PDict [])].

(** Call 0 is made, its request has gone out and it waits for its
    response. *)
Definition pending_call : session :=
  snd (json_rpc_wait 0 (Return tt)
         (snd (json_rpc_request "ping" PNone (open_jsonrpc_session 0)))).

(** [json.dumps(msg, indent=4)] of the standard library on a response
    instance: an instance of a class is none of the values its encoder
    knows (dict, list, str, numbers, booleans, [None]) and no [default]
    is passed, so it raises [TypeError] (not JSON serializable). *)
Definition dumps_msg_fails (msg : JSONRPCResult) : exn + string := inl TypeError.

End JsonRpc.

(* ===================================================================== *)
(** * Clearing messages *)
(* ===================================================================== *)

Module Messages.

(** Field annotations used by [piker/clearing/_messages.py]. *)
Inductive ftype : Type :=
| TStr
| TInt
| TFloat
| TDict
| TList (item : ftype)
| TLiteral (allowed : list string)
| TOptional (t : ftype)
| TUnion (a b : ftype)
| TClass (name : string).

(** A declared field: name, annotation and default, if it has one. *)
Record field : Type := mkField {
  fname : string;
  ftyp : ftype;
  fdefault : option pyval
}.

Definition required (name : string) (t : ftype) : field := mkField name t None.
Definition optional (name : string) (t : ftype) (d : pyval) : field :=
  mkField name t (Some d).

Definition int_or_str : ftype := TUnion TInt TStr.

(** ** The declarations, field by field *)

Definition Order : list field :=
  [ required "action" (TLiteral ["buy"; "sell"; "alert"]);
    required "exec_mode" (TLiteral ["dark"; "live"]);
    required "oid" TStr;
    required "symbol" (TUnion TStr (TClass "Symbol"));
    required "account" TStr;
    required "price" TFloat;
    required "size" TFloat;
    optional "brokers" (TOptional (TList TStr)) (PList []) ].

Definition Cancel : list field :=
  [ optional "action" TStr (PStr "cancel");
    required "oid" TStr;
    required "symbol" TStr ].

Definition Status : list field :=
  [ optional "name" TStr (PStr "status");
    required "time_ns" TInt;
    required "oid" TStr;
    required "resp"
      (TLiteral ["pending"; "open"; "dark_open"; "triggered"; "closed";
                 "fill"; "canceled"; "error"]);
    optional "reqid" (TOptional int_or_str) PNone;
    optional "req" (TOptional (TUnion (TClass "Order") (TClass "Cancel"))) PNone;
    optional "src" (TOptional TStr) PNone;
    optional "brokerd_msg" TDict (PDict []) ].

Definition BrokerdCancel : list field :=
  [ optional "action" TStr (PStr "cancel");
    required "oid" TStr;
    required "time_ns" TInt;
    required "account" TStr;
    optional "reqid" (TOptional int_or_str) PNone ].

Definition BrokerdOrder : list field :=
  [ required "oid" TStr;
    required "account" TStr;
    required "time_ns" TInt;
    optional "action" TStr (PStr "");
    optional "reqid" (TOptional int_or_str) PNone;
    required "symbol" TStr;
    required "price" TFloat;
    required "size" TFloat ].

Definition BrokerdOrderAck : list field :=
  [ optional "name" TStr (PStr "ack");
    required "reqid" int_or_str;
    required "oid" TStr;
    optional "account" TStr (PStr "") ].

Definition BrokerdStatus : list field :=
  [ optional "name" TStr (PStr "status");
    required "reqid" int_or_str;
    required "time_ns" TInt;
    required "status"
      (TLiteral ["open"; "canceled"; "fill"; "pending"; "error"]);
    required "account" TStr;
    optional "filled" TFloat (PFloat 0);
    optional "reason" TStr (PStr "");
    optional "remaining" TFloat (PFloat 0);
    optional "broker_details" TDict (PDict [("name", PStr "")]) ].

Definition BrokerdFill : list field :=
  [ optional "name" TStr (PStr "fill");
    required "reqid" int_or_str;
    required "time_ns" TInt;
    required "size" TFloat;
    required "price" TFloat;
    optional "action" (TOptional TStr) PNone;
    optional "broker_details" TDict (PDict []);
    required "broker_time" TFloat ].

Definition BrokerdError : list field :=
  [ optional "name" TStr (PStr "error");
    required "oid" TStr;
    optional "reqid" (TOptional int_or_str) PNone;
    required "symbol" TStr;
    required "reason" TStr;
    optional "broker_details" TDict (PDict []) ].

Definition BrokerdPosition : list field :=
  [ optional "name" TStr (PStr "position");
    required "broker" TStr;
    required "account" TStr;
    required "symbol" TStr;
    required "size" TFloat;
    required "avg_price" TFloat;
    optional "currency" TStr (PStr "") ].

(** Every message class of the module, by name. *)
Definition taxonomy : list (string * list field) :=
  [ ("Order", Order); ("Cancel", Cancel); ("Status", Status);
    ("BrokerdCancel", BrokerdCancel); ("BrokerdOrder", BrokerdOrder);
    ("BrokerdOrderAck", BrokerdOrderAck); ("BrokerdStatus", BrokerdStatus);
    ("BrokerdFill", BrokerdFill); ("BrokerdError", BrokerdError);
    ("BrokerdPosition", BrokerdPosition) ].

(** ** Construction *)

Inductive construction (A : Type) : Type :=
| Built (msg : A)
| SchemaError (field_name : string).

Arguments Built {A} msg.
Arguments SchemaError {A} field_name.

(** Keyword arguments and built messages: field name to value. *)
Definition lookup_kw (name : string) (kwargs : list (string * pyval))
    : option pyval :=
  snd <$> find (fun kv => String.eqb (fst kv) name) kwargs.

Definition declares (fields : list field) (name : string) : bool :=
  existsb (fun f => String.eqb (fname f) name) fields.

(** The enum check: a value of a [Literal[...]] field is one of the
    listed strings. *)
Definition in_literal (allowed : list string) (v : pyval) : bool :=
  match v with
  | PStr s => existsb (String.eqb s) allowed
  | _ => false
  end.

Definition enum_ok (t : ftype) (v : pyval) : bool :=
  match t with
  | TLiteral allowed => in_literal allowed v
  | _ => true
  end.

(** Modelled from the spec: the constructor every message class inherits
    from [Struct] (piker.data.types, not among the sources).  It
    "validates that required fields are present and that enum-valued
    fields are drawn from the declared literal set; construction fails
    with a SchemaError otherwise", unknown fields are an error too, and a
    field with a declared default may be left out. *)
Fixpoint fill (fields : list field) (kwargs : list (string * pyval))
    : construction (list (string * pyval)) :=
  match fields with
  | [] => Built []
  | f :: fields' =>
      match
        match lookup_kw (fname f) kwargs with
        | Some v => if enum_ok (ftyp f) v then Some v else None
        | None => fdefault f
        end
      with
      | None => SchemaError (fname f)
      | Some v =>
          match fill fields' kwargs with
          | Built msg => Built ((fname f, v) :: msg)
          | SchemaError n => SchemaError n
          end
      end
  end.

(** Modelled from the spec: see [fill]; the first unknown keyword, if
    any, is reported before the fields are filled in. *)
Definition construct (fields : list field) (kwargs : list (string * pyval))
    : construction (list (string * pyval)) :=
  match find (fun kv => negb (declares fields (fst kv))) kwargs with
  | Some kv => SchemaError (fst kv)
  | None => fill fields kwargs
  end.

Definition is_error {A} (c : construction A) : bool :=
  match c with SchemaError _ => true | Built _ => false end.

(** ** Keyword arguments used in examples *)

(** The order of the specification's first scenario. *)
Definition buy_order : list (string * pyval) :=
  [ ("action", PStr "buy"); ("exec_mode", PStr "live"); ("oid", PStr "a1");
    ("symbol", PStr "XBTUSD"); ("account", PStr "acct1");
    ("price", PFloat 100); ("size", PFloat 1) ].

(** The same with an action that is not declared. *)
Definition hold_order : list (string * pyval) :=
  [ ("action", PStr "hold"); ("exec_mode", PStr "live"); ("oid", PStr "a1");
    ("symbol", PStr "XBTUSD"); ("account", PStr "acct1");
    ("price", PFloat 100); ("size", PFloat 1) ].

End Messages.

(* ===================================================================== *)
(** * The dialog table of the routing engine *)
(* ===================================================================== *)

Module Routing.

(** [reqid: int | str] *)
Inductive reqid_t : Type :=
| ReqInt (n : Z)
| ReqStr (s : string).

#[global] Instance reqid_eq_dec : EqDecision reqid_t.
Proof. solve_decision. Defined.

(** [class BrokerdOrderAck(Struct)] *)
Record BrokerdOrderAck : Type := mkAck {
  name : string;
  reqid : reqid_t;
  oid : string;
  account : string
}.

(** Modelled from the spec: a dialog, "identified by oid and later
    enriched with a broker-assigned reqid once acknowledged".  The routing
    engine is not among the sources. *)
Record dialog : Type := mkDialog {
  bound_reqid : option reqid_t
}.

Inductive routing_error : Type :=
| UnknownDialog
| RebindError.

(** Modelled from the spec: [on_brokerd_ack], which is not among the
    sources: "bind reqid to the dialog; bindings are immutable - a second
    ack for the same oid with a different reqid is an error"; an ack for
    an oid without dialog is an [UnknownDialog].  The table comes back
    next to the error, if any. *)
Definition on_brokerd_ack (ack : BrokerdOrderAck)
    (dialogs : gmap string dialog) : option routing_error * gmap string dialog :=
  match dialogs !! oid ack with
  | None => (Some UnknownDialog, dialogs)
  | Some d =>
      match bound_reqid d with
      | None => (None, <[oid ack := mkDialog (Some (reqid ack))]> dialogs)
      | Some r =>
          if decide (r = reqid ack) then (None, dialogs)
          else (Some RebindError, dialogs)
      end
  end.

(** Acks handled one after the other, whatever each one answers. *)
Definition on_brokerd_acks (acks : list BrokerdOrderAck)
    (dialogs : gmap string dialog) : gmap string dialog :=
  foldl (fun tbl ack => snd (on_brokerd_ack ack tbl)) dialogs acks.

(** The reqid bound to the dialog of [o], if any. *)
Definition binding (dialogs : gmap string dialog) (o : string) : option reqid_t :=
  d ← dialogs !! o; bound_reqid d.

(** A table with the one dialog of a submitted, unacknowledged order. *)
Definition submitted : gmap string dialog := {["a1" := mkDialog None]}.

End Routing.

(* ===================================================================== *)
(** * Using a channel *)
(* ===================================================================== *)

Module Autorecon.
Import WebBs.

(** [NoBsWs.__init__] (lines 56-66), at instant [t] of a world whose
    history so far is [h]: no connection yet. *)
Definition init (u : string) (with_fixture : bool) (t : nat)
    (h : list event) : NoBsWs :=
  mkNoBsWs u with_fixture None t h.

(** [open_autorecon_ws], lines 147-149: the channel is made and connected
    before it is yielded. *)
Definition open_autorecon_ws (w : world) (fuel : nat) (u : string)
    (with_fixture : bool) (t : nat) (h : list event)
    : outcome conn * NoBsWs :=
  _connect w fuel default_tries (init u with_fixture t h).

(** What the holder of a channel can do with it, any number of times:
    [send_msg], [recv_msg] (also through [__anext__], lines 132-133), or
    [_connect]. *)
Inductive used (json : json_module) (w : world) : NoBsWs -> NoBsWs -> Prop :=
| used_refl s : used json w s s
| used_send s fuel data out s1 s2 :
    send_msg json w fuel data s = (out, s1) ->
    used json w s1 s2 -> used json w s s2
| used_recv s fuel out s1 s2 :
    recv_msg json w fuel s = (out, s1) ->
    used json w s1 s2 -> used json w s s2
| used_connect s fuel tries out s1 s2 :
    _connect w fuel tries s = (out, s1) ->
    used json w s1 s2 -> used json w s s2.

(** What stays true of a channel object: its url and fixture, and that
    it holds a connection once it has held one. *)
Definition keeps (s s' : NoBsWs) : Prop :=
  url s' = url s /\ fixture s' = fixture s /\
  (_ws s <> None -> _ws s' <> None).

(** Events of the close loop of [_connect]. *)
Definition in_close_loop (ev : event) : bool :=
  match ev with
  | EvAclose _ | EvSleep _ => true
  | _ => false
  end.

(** Events of the attempts of [_connect]. *)
Definition in_attempts (ev : event) : bool :=
  match ev with
  | EvOpen _ _ | EvFixture _ | EvLogInfo | EvLogError _ _ | EvSleep _
  | EvLogException => true
  | _ => false
  end.

(** An event of a call of [send_msg data] that is not its final success:
    anything but a send, or a send of [text] that failed with a class of
    [recon_errors]. *)
Definition absorbed_send (text : string) (ev : event) : bool :=
  match ev with
  | EvSend _ t (Some e) => String.eqb t text && recon_errors e
  | EvSend _ _ None => false
  | EvGet _ _ => false
  | _ => true
  end.

(** An event of a call of [recv_msg] that is not its final success:
    anything but a receive, or a receive that failed with a class of
    [recon_errors], or one whose text [json.loads] rejected with such a
    class. *)
Definition absorbed_recv (json : json_module) (ev : event) : bool :=
  match ev with
  | EvGet _ (inl e) => recon_errors e
  | EvGet _ (inr text) =>
      match loads json text with
      | inl e => recon_errors e
      | inr _ => false
      end
  | EvSend _ _ _ => false
  | _ => true
  end.

(** From instant [t] on, [k] attempts fail in [open_websocket_url] with a
    class of [recon_errors] and the next one brings the link up as [c]. *)
Definition opens_after (w : world) (t k : nat) (c : conn) : Prop :=
  (forall j, (j < k)%nat ->
     exists e, open_r (w (t + j)%nat) = inl e /\ recon_errors e = true) /\
  open_r (w (t + k)%nat) = inr c.

(** The stack closes (instant 0), two attempts fail (1, 2), the third
    brings the link up (3). *)
Definition third_time_world : world :=
  fun t =>
    match t with
    | 1%nat | 2%nat =>
        {| aclose_r := None; open_r := inl HandshakeError;
           fixture_r := inr PNone; send_r := None; get_r := inr "null" |}
    | _ => quiet
    end.

(** The link comes up and the fixture yields [True]. *)
Definition talkative_hook_world : world :=
  fun _ => {| aclose_r := None; open_r := inr 1%nat;
              fixture_r := inr (PBool true); send_r := None;
              get_r := inr "null" |}.

(** A receive yields text that is not JSON. *)
Definition garbage_world : world :=
  fun _ => {| aclose_r := None; open_r := inr 1%nat; fixture_r := inr PNone;
              send_r := None; get_r := inr "<html>" |}.

End Autorecon.

(* ===================================================================== *)
(** * Using a session *)
(* ===================================================================== *)

Module JsonRpcUse.
Import JsonRpc.

(** Every stored response sits under its own id, and a slot whose event
    is set holds a response. *)
Definition slots_answered (st : session) : Prop :=
  forall i sl,
    rpc_results st !! i = Some sl ->
    (slot_event sl = true -> is_Some (slot_result sl)) /\
    (forall msg, slot_result sl = Some msg -> id msg = i).

(** The suspended calls were numbered by the counter. *)
Definition waiters_below_counter (st : session) : Prop :=
  forall i, i ∈ waiting st -> i < rpc_id st.

(** How a call that runs again ends, given the response in its slot. *)
Definition ending (json : json_module) (msg : JSONRPCResult) : outcome pyobj :=
  match error msg with
  | PNone => Return (Response msg)
  | err =>
      match dumps_indent4 json err with
      | inr text => Raise (PyException text)
      | inl e => Raise e
      end
  end.

(** The slot of call [i] is still there and the call is not suspended. *)
Definition orphaned (i : Z) (st : session) : Prop :=
  is_Some (rpc_results st !! i) /\ (i ∉ waiting st) /\ i < rpc_id st.

End JsonRpcUse.

(* ===================================================================== *)
(** * The [api] command of the broker client *)
(* ===================================================================== *)

Module Cli.

(** ['=' in kwarg] *)
Fixpoint contains_eq (s : string) : bool :=
  match s with
  | EmptyString => false
  | String c s' => Ascii.eqb c "="%char || contains_eq s'
  end.

(** [kwarg.partition('=')]: the text before the first ['='], the
    separator and the text after it; the whole text and two empty strings
    when there is no ['=']. *)
Fixpoint partition_eq (s : string) : string * string * string :=
  match s with
  | EmptyString => (EmptyString, EmptyString, EmptyString)
  | String c s' =>
      if Ascii.eqb c "="%char then (EmptyString, "=", s')
      else
        let '(before, sep, after) := partition_eq s' in
        (String c before, sep, after)
  end.

(** Lines 44-50 of [api]: the dict [_kwargs] built from the command line
    and the arguments reported by [log.error], newest first. *)
Definition api_kwargs_step (acc : gmap string string * list string)
    (kwarg : string) : gmap string string * list string :=
  if negb (contains_eq kwarg) then (fst acc, kwarg :: snd acc)
  else
    let '(key, _, value) := partition_eq kwarg in
    (<[key := value]> (fst acc), snd acc).

Definition api_kwargs (kwargs : list string)
    : gmap string string * list string :=
  foldl api_kwargs_step (∅, []) kwargs.

(** The key an argument sets. *)
Definition key_of (kwarg : string) : string := fst (fst (partition_eq kwarg)).

End Cli.

(* ===================================================================== *)
(** * The bars in view of a chart *)
(* ===================================================================== *)

Module Chart.

(** [_min_points_to_show] of [piker/ui/_style.py]. *)
Definition _min_points_to_show : Z := 3.

(** [bars_range], for a view from [l] to [r] (what [view_range] returns)
    over an array of [len] bars. *)
Definition bars_range (l r len : Z) : Z * Z * Z * Z :=
  let lbar := Z.max l 0 in
  let rbar := Z.min r len in
  (l, lbar, rbar, r).

(** A bound of a Python slice over [len] items: counted from the end when
    negative, and clipped. *)
Definition slice_bound (i len : Z) : Z :=
  if i <? 0 then Z.max (i + len) 0 else Z.min i len.

(** [a[lo:hi]] *)
Definition py_slice {A} (lo hi : Z) (a : list A) : list A :=
  let len := Z.of_nat (length a) in
  let lo' := slice_bound lo len in
  let hi' := slice_bound hi len in
  firstn (Z.to_nat (hi' - lo')) (skipn (Z.to_nat lo') a).

(** What [_set_yrange] goes on to do once it has the bars in view. *)
Inductive yrange_path (A : Type) : Type :=
| NoData                  (* log.error(...); return *)
| Breakpoint              (* breakpoint() *)
| Rescale (bars : list A).

Arguments NoData {A}.
Arguments Breakpoint {A}.
Arguments Rescale {A} bars.

(** [_set_yrange], lines 410-434: the limits handed to [_set_xlimits] and
    the branch taken on the bars in view. *)
Definition _set_yrange {A} (l r : Z) (_array : list A)
    : (Z * Z) * yrange_path A :=
  let len := Z.of_nat (length _array) in
  let '(l, lbar, rbar, r) := bars_range l r len in
  let view_len := r - l in
  let extra := view_len - _min_points_to_show in
  let begin_ := 0 - extra in
  let end_ := len - 1 + extra in
  let bars := py_slice lbar rbar _array in
  ((begin_, end_),
   if (length bars =? 0)%nat then NoData
   else if lbar <? 0 then Breakpoint
   else Rescale bars).

End Chart.

(* ===================================================================== *)
(** * Facts about the channel *)
(* ===================================================================== *)

Module WebBsFacts.
Import WebBs.

(** Symbolic evaluation of the channel monad. *)
Ltac run_py :=
  cbv [stack_aclose open_websocket_url enter_fixture send_message get_message
       bind ret raise out_of_fuel try_except lift emit tick set_ws get_state
       sleep] in *;
  cbn [url fixture _ws clock history fst snd] in *.

Lemma close_loop_unfold w fuel s :
  close_loop w (S fuel) s =
  let s1 := mkNoBsWs (url s) (fixture s) (_ws s) (S (clock s))
                     (EvAclose (aclose_r (w (clock s))) :: history s) in
  match aclose_r (w (clock s)) with
  | None => (Return tt, s1)
  | Some e =>
      if close_retry_errors e
      then close_loop w fuel
             (mkNoBsWs (url s) (fixture s) (_ws s) (S (clock s))
                       (EvSleep half_second :: history s1))
      else (Raise e, s1)
  end.
Proof.
  cbn [close_loop]. run_py.
  destruct (aclose_r (w (clock s))) as [e|]; [|reflexivity].
  destruct (close_retry_errors e); reflexivity.
Qed.


Lemma connect_attempt_unfold w s :
  connect_attempt w s =
  let t := clock s in
  match open_r (w t) with
  | inl e =>
      (Raise e,
       mkNoBsWs (url s) (fixture s) (_ws s) (S t)
                (EvOpen (url s) (inl e) :: history s))
  | inr c =>
      let opened := EvOpen (url s) (inr c) :: history s in
      if fixture s then
        match fixture_r (w (S t)) with
        | inl e =>
            (Raise e,
             mkNoBsWs (url s) true (Some c) (S (S t))
                      (EvFixture (inl e) :: opened))
        | inr PNone =>
            (Return c,
             mkNoBsWs (url s) true (Some c) (S (S t))
                      (EvLogInfo :: EvFixture (inr PNone) :: opened))
        | inr v =>
            (Raise AssertionError,
             mkNoBsWs (url s) true (Some c) (S (S t))
                      (EvFixture (inr v) :: opened))
        end
      else
        (Return c,
         mkNoBsWs (url s) false (Some c) (S t) (EvLogInfo :: opened))
  end.
Proof.
  unfold connect_attempt. run_py.
  destruct (open_r (w (clock s))) as [e|c]; [reflexivity|].
  cbn. destruct (fixture s); [|reflexivity].
  cbn. destruct (fixture_r (w (S (clock s)))) as [e|v]; [reflexivity|].
  destruct v; reflexivity.
Qed.

Lemma connect_attempts_unfold w r i last s :
  connect_attempts w (S r) i last s =
  match connect_attempt w s with
  | (Raise e, s1) =>
      if recon_errors e
      then connect_attempts w r (i + 1) (Some e)
             (mkNoBsWs (url s1) (fixture s1) (_ws s1) (clock s1)
                       (EvSleep half_second :: EvLogError i e :: history s1))
      else (Raise e, s1)
  | other => other
  end.
Proof.
  cbn [connect_attempts]. unfold try_except.
  destruct (connect_attempt w s) as [[c|e|] s1]; reflexivity.
Qed.

Lemma connect_attempts_zero w i last s :
  connect_attempts w 0 i last s =
  (Raise (match last with Some e => e | None => TypeError end),
   mkNoBsWs (url s) (fixture s) (_ws s) (clock s)
            (EvLogException :: history s)).
Proof. cbn. run_py. destruct last; reflexivity. Qed.

Lemma close_loop_completes w k : forall fuel s,
  closes_after w (clock s) k -> (k < fuel)%nat ->
  close_loop w fuel s =
  (Return tt,
   mkNoBsWs (url s) (fixture s) (_ws s) (clock s + k + 1)
            (close_events w (clock s) k ++ history s)).
Proof.
  induction k as [|k IH]; intros fuel s [Hretry Hok] Hfuel;
    (destruct fuel as [|fuel]; [lia|]); rewrite close_loop_unfold; cbn zeta.
  - rewrite Nat.add_0_r in Hok. cbn [close_events app]. rewrite Hok.
    repeat f_equal. lia.
  - destruct (Hretry 0%nat) as (e & He & Hcls); [lia|].
    rewrite Nat.add_0_r in He. rewrite He, Hcls.
    rewrite IH; cbn [url fixture _ws clock history].
    + cbn [close_events]. rewrite He, <- app_assoc. cbn.
      repeat f_equal. lia.
    + split.
      * intros j Hj. destruct (Hretry (S j)) as (e' & He' & Hc'); [lia|].
        exists e'. split; [|exact Hc'].
        rewrite <- He'. f_equal. f_equal. lia.
      * rewrite <- Hok. f_equal. f_equal. lia.
    + lia.
Qed.

Lemma close_loop_raise w : forall fuel s e s',
  close_loop w fuel s = (Raise e, s') -> close_raised e (history s').
Proof.
  induction fuel as [|fuel IH]; intros s e s' H.
  - discriminate.
  - rewrite close_loop_unfold in H. cbn zeta in H.
    destruct (aclose_r (w (clock s))) as [e0|] eqn:Hr; [|discriminate].
    destruct (close_retry_errors e0) eqn:Hc.
    + eapply IH; eauto.
    + inversion H; subst. split; [exact Hc|]. cbn. eauto.
Qed.


Lemma connect_attempts_all_fail w :
  (forall t, exists e, open_r (w t) = inl e /\ recon_errors e = true) ->
  forall r i last s,
  connect_attempts w r i last s =
  (Raise (final_error w (clock s) r last),
   mkNoBsWs (url s) (fixture s) (_ws s) (clock s + r)
            (EvLogException :: failed_attempts w (url s) (clock s) i r
                            ++ history s)).
Proof.
  intros Hfail. induction r as [|r IH]; intros i last s.
  - rewrite connect_attempts_zero. cbn. repeat f_equal. lia.
  - rewrite connect_attempts_unfold, connect_attempt_unfold. cbn zeta.
    destruct (Hfail (clock s)) as (e & He & Hrec).
    rewrite He, Hrec, IH. cbn [url fixture _ws clock history].
    cbn [failed_attempts]. rewrite He, <- app_assoc. cbn [error_of app].
    f_equal.
    + f_equal. destruct r as [|r']; cbn.
      * rewrite Nat.add_0_r, He. reflexivity.
      * do 3 f_equal. lia.
    + f_equal. lia.
Qed.

Lemma attempts_app h1 h2 : attempts (h1 ++ h2) = (attempts h1 + attempts h2)%nat.
Proof. unfold attempts. now rewrite List.filter_app, length_app. Qed.

Lemma attempts_close_events w k : forall t, attempts (close_events w t k) = 0%nat.
Proof.
  induction k as [|k IH]; intros t; [reflexivity|].
  cbn [close_events]. rewrite attempts_app, IH. reflexivity.
Qed.

Lemma attempts_failed_attempts w u n : forall t i,
  attempts (failed_attempts w u t i n) = n.
Proof.
  induction n as [|n IH]; intros t i; [reflexivity|].
  cbn [failed_attempts]. rewrite attempts_app, IH. cbn. lia.
Qed.


Lemma close_loop_attempts w : forall fuel s out s',
  close_loop w fuel s = (out, s') -> attempts (history s') = attempts (history s).
Proof.
  induction fuel as [|fuel IH]; intros s out s' H.
  - inversion H; subst. reflexivity.
  - rewrite close_loop_unfold in H. cbn zeta in H.
    destruct (aclose_r (w (clock s))) as [e0|].
    + destruct (close_retry_errors e0).
      * apply IH in H. exact H.
      * inversion H; subst. reflexivity.
    + inversion H; subst. reflexivity.
Qed.

Lemma connect_attempt_attempts w s out s1 :
  connect_attempt w s = (out, s1) ->
  attempts (history s1) = S (attempts (history s)).
Proof.
  rewrite connect_attempt_unfold. cbn zeta. intros H.
  destruct (open_r (w (clock s))) as [e|c].
  - inversion H; subst. reflexivity.
  - destruct (fixture s).
    + destruct (fixture_r (w (S (clock s)))) as [e|[]];
        inversion H; subst; reflexivity.
    + inversion H; subst. reflexivity.
Qed.

(** In any world, [_connect] makes at most [tries] attempts. *)
Lemma connect_attempts_bounded w : forall r i last s out s',
  connect_attempts w r i last s = (out, s') ->
  (attempts (history s') <= attempts (history s) + r)%nat.
Proof.
  induction r as [|r IH]; intros i last s out s' H.
  - rewrite connect_attempts_zero in H. inversion H; subst. cbn [history].
    change (attempts (EvLogException :: ?l)) with (attempts l). lia.
  - rewrite connect_attempts_unfold in H.
    destruct (connect_attempt w s) as [[c|e|] s1] eqn:Hatt;
      apply connect_attempt_attempts in Hatt.
    + inversion H; subst. lia.
    + destruct (recon_errors e).
      * apply IH in H. cbn [history] in H.
        change (attempts (EvSleep ?q :: EvLogError ?j ?x :: ?l))
          with (attempts l) in H. lia.
      * inversion H; subst. lia.
    + inversion H; subst. lia.
Qed.

Lemma connect_bounded w fuel tries s out s' :
  _connect w fuel tries s = (out, s') ->
  (attempts (history s') <= attempts (history s) + Z.to_nat tries)%nat.
Proof.
  unfold _connect, bind. intros H.
  destruct (close_loop w fuel s) as [[[]|e|] s0] eqn:Hclose;
    apply close_loop_attempts in Hclose.
  - apply connect_attempts_bounded in H. lia.
  - inversion H; subst. lia.
  - inversion H; subst. lia.
Qed.

Lemma sleep_durations_app h1 h2 :
  sleep_durations (h1 ++ h2) = (sleep_durations h1 ++ sleep_durations h2)%list.
Proof.
  induction h1 as [|ev h1 IH]; [reflexivity|].
  destruct ev; cbn; rewrite ?IH; reflexivity.
Qed.

Lemma sleep_durations_close_events w k : forall t,
  sleep_durations (close_events w t k) = List.repeat (1 # 2)%Q k.
Proof.
  induction k as [|k IH]; intros t; [reflexivity|].
  cbn [close_events]. rewrite sleep_durations_app, IH.
  cbn. symmetry. apply List.repeat_cons.
Qed.

Lemma sleep_durations_failed_attempts w u n : forall t i,
  sleep_durations (failed_attempts w u t i n) = List.repeat (1 # 2)%Q n.
Proof.
  induction n as [|n IH]; intros t i; [reflexivity|].
  cbn [failed_attempts]. rewrite sleep_durations_app, IH.
  cbn. symmetry. apply List.repeat_cons.
Qed.

(** C2.  When every attempt to open the websocket fails with a class of
    [recon_errors], [_connect] (once its close loop is through) makes
    exactly [tries] attempts (1000 by default), logs the error and
    sleeps after each of them, every sleep of the run lasting 1/2
    second, and then raises, once, the error of the last attempt. *)
Theorem connect_exhausts_budget (w : world) (tries : Z) (fuel k : nat)
    (s : NoBsWs) :
  0 < tries ->
  (forall t, exists e, open_r (w t) = inl e /\ recon_errors e = true) ->
  closes_after w (clock s) k ->
  (k < fuel)%nat ->
  default_tries = 1000 /\
  exists e s',
    _connect w fuel tries s = (Raise e, s') /\
    recon_errors e = true /\
    open_r (w (clock s + k + Z.to_nat tries)%nat) = inl e /\
    history s' =
      EvLogException ::
      failed_attempts w (url s) (clock s + k + 1) 0 (Z.to_nat tries) ++
      close_events w (clock s) k ++ history s /\
    attempts (history s') = (attempts (history s) + Z.to_nat tries)%nat /\
    sleep_durations (history s') =
      (List.repeat (1 # 2)%Q (Z.to_nat tries) ++ List.repeat (1 # 2)%Q k ++
       sleep_durations (history s))%list.
Proof.
  intros Htries Hfail Hclose Hfuel. split; [reflexivity|].
  unfold _connect, bind.
  rewrite (close_loop_completes w k fuel s Hclose Hfuel).
  rewrite (connect_attempts_all_fail w Hfail).
  cbn [url fixture _ws clock history].
  destruct (Z.to_nat tries) as [|r] eqn:Hr; [lia|].
  destruct (Hfail (clock s + k + 1 + r)%nat) as (e & He & Hrec).
  eexists _, _. split; [reflexivity|].
  cbn [final_error history]. rewrite He. cbn [error_of].
  repeat split.
  - exact Hrec.
  - rewrite <- He. do 2 f_equal. lia.
  - change (attempts (EvLogException :: ?l)) with (attempts l).
    rewrite !attempts_app, attempts_failed_attempts, attempts_close_events.
    lia.
  - change (sleep_durations (EvLogException :: ?l)) with (sleep_durations l).
    rewrite !sleep_durations_app, sleep_durations_failed_attempts,
      sleep_durations_close_events.
    reflexivity.
Qed.

Lemma connect_exhausts_budget_witness :
  default_tries = 1000 /\
  exists e s',
    _connect down_world 1 3 (fresh_channel false) = (Raise e, s') /\
    recon_errors e = true /\
    open_r (down_world (0 + 0 + Z.to_nat 3)%nat) = inl e /\
    history s' =
      EvLogException ::
      failed_attempts down_world "wss://example" (0 + 0 + 1) 0 (Z.to_nat 3) ++
      close_events down_world 0 0 ++ [] /\
    attempts (history s') = (0 + Z.to_nat 3)%nat /\
    sleep_durations (history s') =
      (List.repeat (1 # 2)%Q (Z.to_nat 3) ++ List.repeat (1 # 2)%Q 0 ++ [])%list.
Proof.
  apply (connect_exhausts_budget down_world 3 1 0 (fresh_channel false)).
  - lia.
  - intros t. exists ConnectionClosed. split; reflexivity.
  - split; [intros j Hj; lia | reflexivity].
  - lia.
Defined.

(** With no attempt to make, [raise last_err] raises [None], which is a
    [TypeError]. *)
Lemma connect_without_budget w tries fuel s :
  tries <= 0 -> closes_after w (clock s) 0 -> (0 < fuel)%nat ->
  exists s', _connect w fuel tries s = (Raise TypeError, s').
Proof.
  intros Ht Hc Hf. unfold _connect, bind.
  rewrite (close_loop_completes w 0 fuel s Hc Hf).
  replace (Z.to_nat tries) with 0%nat by lia.
  rewrite connect_attempts_zero. eauto.
Qed.

(** ** What comes out of [_connect] *)

Lemma close_loop_frame w : forall fuel s out s',
  close_loop w fuel s = (out, s') ->
  url s' = url s /\ fixture s' = fixture s /\ _ws s' = _ws s.
Proof.
  induction fuel as [|fuel IH]; intros s out s' H.
  - inversion H; subst. auto.
  - rewrite close_loop_unfold in H. cbn zeta in H.
    destruct (aclose_r (w (clock s))) as [e0|].
    + destruct (close_retry_errors e0).
      * apply IH in H. exact H.
      * inversion H; subst. auto.
    + inversion H; subst. auto.
Qed.

Lemma connect_attempt_frame w s out s1 :
  connect_attempt w s = (out, s1) ->
  url s1 = url s /\ fixture s1 = fixture s.
Proof.
  rewrite connect_attempt_unfold. cbn zeta. intros H.
  destruct (open_r (w (clock s))) as [e|c].
  - inversion H; subst. auto.
  - destruct (fixture s) eqn:Hfx.
    + destruct (fixture_r (w (S (clock s)))) as [e|[]];
        inversion H; subst; auto.
    + inversion H; subst. auto.
Qed.

Lemma connect_attempt_raise w s e s1 :
  connect_attempt w s = (Raise e, s1) ->
  match history s1 with
  | EvOpen _ (inl e') :: _ => e = e'
  | EvFixture (inl e') :: _ => e = e'
  | EvFixture (inr v) :: _ => v <> PNone /\ e = AssertionError
  | _ => False
  end.
Proof.
  rewrite connect_attempt_unfold. cbn zeta. intros H.
  destruct (open_r (w (clock s))) as [e0|c].
  - inversion H; subst. reflexivity.
  - destruct (fixture s).
    + destruct (fixture_r (w (S (clock s)))) as [e0|[]];
        inversion H; subst; cbn; auto; split; congruence.
    + discriminate.
Qed.

Lemma connect_attempt_return w s c s1 :
  connect_attempt w s = (Return c, s1) ->
  _ws s1 = Some c /\
  history s1 =
    EvLogInfo ::
    (if fixture s then [EvFixture (inr PNone)] else []) ++
    EvOpen (url s) (inr c) :: history s.
Proof.
  rewrite connect_attempt_unfold. cbn zeta. intros H.
  destruct (open_r (w (clock s))) as [e0|c0]; [discriminate|].
  destruct (fixture s).
  - destruct (fixture_r (w (S (clock s)))) as [e0|[]];
      inversion H; subst; auto.
  - inversion H; subst. auto.
Qed.

Lemma connect_attempts_raise w : forall r i last s e s',
  connect_attempts w r i last s = (Raise e, s') ->
  (r = 0%nat /\ history s' = EvLogException :: history s /\
   e = match last with Some e0 => e0 | None => TypeError end) \/
  exhausted e (history s') \/ attempt_raised e (history s').
Proof.
  induction r as [|r IH]; intros i last s e s' H.
  - rewrite connect_attempts_zero in H. inversion H; subst. auto.
  - right. rewrite connect_attempts_unfold in H.
    destruct (connect_attempt w s) as [[c|e1|] s1] eqn:Hatt; try discriminate.
    destruct (recon_errors e1) eqn:Hrec.
    + apply IH in H. cbn [history] in H.
      destruct H as [(_ & Hh & He) | H]; [|exact H].
      left. subst e. exists i, (history s1). exact Hh.
    + inversion H; subst. right. split; [exact Hrec|].
      apply connect_attempt_raise in Hatt. exact Hatt.
Qed.

Lemma connect_raise w fuel tries s e s' :
  0 < tries ->
  _connect w fuel tries s = (Raise e, s') ->
  reconnect_raised e (history s').
Proof.
  intros Ht H. unfold _connect, bind in H.
  destruct (close_loop w fuel s) as [[[]|e0|] s0] eqn:Hclose.
  - apply connect_attempts_raise in H.
    destruct H as [(H0 & _) | H]; [lia|].
    unfold reconnect_raised. tauto.
  - inversion H; subst. apply close_loop_raise in Hclose.
    unfold reconnect_raised. tauto.
  - discriminate.
Qed.

Lemma connect_attempts_return w : forall r i last s c s',
  connect_attempts w r i last s = (Return c, s') ->
  _ws s' = Some c /\
  exists h,
    history s' =
      EvLogInfo ::
      (if fixture s then [EvFixture (inr PNone)] else []) ++
      EvOpen (url s) (inr c) :: h.
Proof.
  induction r as [|r IH]; intros i last s c s' H.
  - rewrite connect_attempts_zero in H. discriminate.
  - rewrite connect_attempts_unfold in H.
    destruct (connect_attempt w s) as [[c1|e1|] s1] eqn:Hatt; try discriminate.
    + inversion H; subst. apply connect_attempt_return in Hatt.
      destruct Hatt as [Hws Hh]. split; [exact Hws|]. eauto.
    + destruct (recon_errors e1); [|discriminate].
      apply connect_attempt_frame in Hatt. destruct Hatt as [Hu Hf].
      apply IH in H. cbn [url fixture] in H. rewrite Hu, Hf in H. exact H.
Qed.

Lemma connect_return w fuel tries s c s' :
  _connect w fuel tries s = (Return c, s') ->
  _ws s' = Some c /\
  exists h,
    history s' =
      EvLogInfo ::
      (if fixture s then [EvFixture (inr PNone)] else []) ++
      EvOpen (url s) (inr c) :: h.
Proof.
  intros H. unfold _connect, bind in H.
  destruct (close_loop w fuel s) as [[[]|e0|] s0] eqn:Hclose; try discriminate.
  apply close_loop_frame in Hclose. destruct Hclose as (Hu & Hf & _).
  apply connect_attempts_return in H. rewrite Hu, Hf in H. exact H.
Qed.


(** ** The fixture inside an attempt *)

(** C7, as the code has it.  With a fixture registered, [_connect] returns
    only after the fixture was entered (and yielded [None]) on the link
    just opened.  When the fixture raises a class of [recon_errors], the
    attempt counts as failed: the error is logged, half a second is
    slept and the loop goes on with one attempt less.  When it raises
    anything else, the error leaves [_connect] at once. *)
Theorem hook_in_connect_attempt (w : world) (fuel : nat) (tries : Z)
    (r : nat) (i : Z) (last : option exn) (s : NoBsWs) (c : conn) :
  fixture s = true ->
  open_r (w (clock s)) = inr c ->
  (forall c' s',
     _connect w fuel tries s = (Return c', s') ->
     exists h, history s' =
               EvLogInfo :: EvFixture (inr PNone) :: EvOpen (url s) (inr c') :: h) /\
  (forall e,
     fixture_r (w (S (clock s))) = inl e -> recon_errors e = true ->
     counts_as_failed_attempt w r i last s c e) /\
  (forall e,
     fixture_r (w (S (clock s))) = inl e -> recon_errors e = false ->
     connect_attempts w (S r) i last s = (Raise e, hook_failed s c e)).
Proof.
  intros Hfx Hopen. repeat split.
  - intros c' s' H. apply connect_return in H. rewrite Hfx in H.
    destruct H as [_ H]. exact H.
  - intros e Hhook Hrec. unfold counts_as_failed_attempt.
    rewrite connect_attempts_unfold, connect_attempt_unfold. cbn zeta.
    rewrite Hopen, Hfx, Hhook, Hrec. reflexivity.
  - intros e Hhook Hrec.
    rewrite connect_attempts_unfold, connect_attempt_unfold. cbn zeta.
    rewrite Hopen, Hfx, Hhook, Hrec. reflexivity.
Qed.

Lemma hook_in_connect_attempt_witness :
  (forall c' s',
     _connect hook_drops_world 1 1000 (closed_channel true) = (Return c', s') ->
     exists h, history s' =
               EvLogInfo :: EvFixture (inr PNone) ::
               EvOpen "wss://example" (inr c') :: h) /\
  (forall e,
     fixture_r (hook_drops_world 2%nat) = inl e -> recon_errors e = true ->
     counts_as_failed_attempt hook_drops_world 999 0 None
                              (closed_channel true) 1%nat e) /\
  (forall e,
     fixture_r (hook_drops_world 2%nat) = inl e -> recon_errors e = false ->
     connect_attempts hook_drops_world 1000 0 None (closed_channel true) =
     (Raise e, hook_failed (closed_channel true) 1%nat e)).
Proof.
  apply (hook_in_connect_attempt hook_drops_world 1 1000 999 0 None
                                 (closed_channel true) 1%nat);
    reflexivity.
Defined.

(** C7, as the specification words it, fails: a fixture that raises an
    error outside [recon_errors] ends [_connect] after a single attempt,
    although the next attempt would have succeeded. *)
Lemma hook_error_aborts_connect :
  fixture (closed_channel true) = true /\
  open_r (hook_breaks_world 1%nat) = inr 1%nat /\
  fixture_r (hook_breaks_world 2%nat) = inl (OtherError "ValueError") /\
  ~ counts_as_failed_attempt hook_breaks_world 999 0 None
      (closed_channel true) 1%nat (OtherError "ValueError") /\
  exists s',
    _connect hook_breaks_world 1 1000 (fresh_channel true) =
    (Raise (OtherError "ValueError"), s') /\
    attempts (history s') = 1%nat.
Proof.
  repeat split.
  - unfold counts_as_failed_attempt. intros H. vm_compute in H. discriminate.
  - eexists. split; vm_compute; reflexivity.
Qed.

(** ** [send_msg] and [recv_msg] *)

Lemma send_msg_retrying json w data : forall fuel s,
  send_msg json w fuel data s = retrying w (ws_send json w data) fuel s.
Proof.
  induction fuel as [|fuel IH]; intros s; [reflexivity|].
  cbn [send_msg retrying]. unfold try_except, bind.
  destruct (ws_send json w data s) as [[a|e|] s1]; try reflexivity.
  destruct (recon_errors e); [|reflexivity].
  destruct (_connect w fuel default_tries s1) as [[c|e1|] s2];
    try reflexivity.
  apply IH.
Qed.

Lemma recv_msg_retrying json w : forall fuel s,
  recv_msg json w fuel s = retrying w (ws_recv json w) fuel s.
Proof.
  induction fuel as [|fuel IH]; intros s; [reflexivity|].
  cbn [recv_msg retrying]. unfold try_except, bind.
  destruct (ws_recv json w s) as [[a|e|] s1]; try reflexivity.
  destruct (recon_errors e); [|reflexivity].
  destruct (_connect w fuel default_tries s1) as [[c|e1|] s2];
    try reflexivity.
  apply IH.
Qed.

Lemma retrying_outcome {A} w (op : M A) : forall fuel s out s',
  retrying w op fuel s = (out, s') ->
  match out with
  | Return a => exists s0, op s0 = (Return a, s')
  | Raise e =>
      reconnect_raised e (history s') \/
      (recon_errors e = false /\ exists s0, op s0 = (Raise e, s'))
  | OutOfFuel => True
  end.
Proof.
  induction fuel as [|fuel IH]; intros s out s' H.
  - inversion H; subst. exact I.
  - cbn [retrying] in H. unfold try_except, bind in H.
    destruct (op s) as [[a|e|] s1] eqn:Hop.
    + inversion H; subst. eauto.
    + destruct (recon_errors e) eqn:Hrec.
      * destruct (_connect w fuel default_tries s1) as [[c|e1|] s2] eqn:Hc.
        -- eapply IH; eauto.
        -- inversion H; subst. left.
           eapply connect_raise; [|exact Hc]. reflexivity.
        -- inversion H; subst. exact I.
      * inversion H; subst. right. eauto.
    + inversion H; subst. exact I.
Qed.

Lemma ws_send_unfold json w data s :
  ws_send json w data s =
  match _ws s with
  | None => (Raise AttributeError, s)
  | Some c =>
      match dumps json data with
      | inl e => (Raise e, s)
      | inr text =>
          (match send_r (w (clock s)) with
           | Some e => Raise e
           | None => Return tt
           end,
           mkNoBsWs (url s) (fixture s) (Some c) (S (clock s))
                    (EvSend c text (send_r (w (clock s))) :: history s))
      end
  end.
Proof.
  unfold ws_send. run_py. destruct (_ws s) as [c|] eqn:Hws; [|reflexivity].
  destruct (dumps json data) as [e|text]; [reflexivity|]. cbn.
  rewrite ?Hws. destruct (send_r (w (clock s))); reflexivity.
Qed.

Lemma ws_recv_unfold json w s :
  ws_recv json w s =
  match _ws s with
  | None => (Raise AttributeError, s)
  | Some c =>
      let s1 := mkNoBsWs (url s) (fixture s) (Some c) (S (clock s))
                         (EvGet c (get_r (w (clock s))) :: history s) in
      match get_r (w (clock s)) with
      | inl e => (Raise e, s1)
      | inr text =>
          match loads json text with
          | inl e => (Raise e, s1)
          | inr v => (Return v, s1)
          end
      end
  end.
Proof.
  unfold ws_recv. run_py. destruct (_ws s) as [c|] eqn:Hws; [|reflexivity].
  rewrite ?Hws.
  destruct (get_r (w (clock s))) as [e|text]; [reflexivity|]. cbn.
  destruct (loads json text); reflexivity.
Qed.

Lemma ws_send_return json w data s0 s' :
  ws_send json w data s0 = (Return tt, s') ->
  exists c text,
    dumps json data = inr text /\
    history s' = EvSend c text None :: history s0.
Proof.
  rewrite ws_send_unfold. intros H.
  destruct (_ws s0) as [c|]; [|discriminate].
  destruct (dumps json data) as [e|text]; [discriminate|].
  destruct (send_r (w (clock s0))) as [e|] eqn:Hs; [discriminate|].
  inversion H; subst. cbn. eauto.
Qed.

Lemma ws_recv_return json w x s0 s' :
  ws_recv json w s0 = (Return x, s') ->
  exists c wire,
    loads json wire = inr x /\
    history s' = EvGet c (inr wire) :: history s0.
Proof.
  rewrite ws_recv_unfold. cbn zeta. intros H.
  destruct (_ws s0) as [c|]; [|discriminate].
  destruct (get_r (w (clock s0))) as [e|wire] eqn:Hg; [discriminate|].
  destruct (loads json wire) as [e|v] eqn:Hl; [discriminate|].
  inversion H; subst. cbn. eauto.
Qed.


Lemma send_msg_outcome json w fuel data s out s' :
  send_msg json w fuel data s = (out, s') ->
  match out with
  | Return _ =>
      exists c text h,
        dumps json data = inr text /\
        history s' = EvSend c text None :: h
  | Raise e =>
      reconnect_raised e (history s') \/
      (recon_errors e = false /\
       exists s0, ws_send json w data s0 = (Raise e, s'))
  | OutOfFuel => True
  end.
Proof.
  intros H. rewrite send_msg_retrying in H.
  apply retrying_outcome in H. destruct out as [[]|e|]; [|exact H|exact I].
  destruct H as [s0 H]. apply ws_send_return in H.
  destruct H as (c & text & Hd & Hh). eauto.
Qed.

Lemma recv_msg_outcome json w fuel s out s' :
  recv_msg json w fuel s = (out, s') ->
  match out with
  | Return x =>
      exists c wire h,
        loads json wire = inr x /\
        history s' = EvGet c (inr wire) :: h
  | Raise e =>
      reconnect_raised e (history s') \/
      (recon_errors e = false /\
       exists s0, ws_recv json w s0 = (Raise e, s'))
  | OutOfFuel => True
  end.
Proof.
  intros H. rewrite recv_msg_retrying in H.
  apply retrying_outcome in H. destruct out as [x|e|]; [|exact H|exact I].
  destruct H as [s0 H]. apply ws_recv_return in H.
  destruct H as (c & wire & Hl & Hh). eauto.
Qed.

(** C1, as the code has it.  A failure of the underlying send or receive
    with a class of [recon_errors] is answered by running [_connect] and
    then making the same call again; it never leaves the call.  The call
    returns only when the underlying operation succeeded.  An exception
    leaves the call only if [_connect] raised it (its last error once
    the attempts ran out, or an error of its close loop or of an attempt
    that it does not retry) or if the operation itself raised an error
    outside [recon_errors]. *)
Theorem recoverable_errors_reconnect_and_retry (json : json_module)
    (w : world) (fuel : nat) (data : pyval) (s : NoBsWs) :
  (forall e s1,
     ws_send json w data s = (Raise e, s1) -> recon_errors e = true ->
     send_msg json w (S fuel) data s =
     (_connect w fuel default_tries ;;; send_msg json w fuel data)%py s1) /\
  (forall e s1,
     ws_recv json w s = (Raise e, s1) -> recon_errors e = true ->
     recv_msg json w (S fuel) s =
     (_connect w fuel default_tries ;;; recv_msg json w fuel)%py s1) /\
  (forall out s',
     send_msg json w fuel data s = (out, s') ->
     match out with
     | Return _ =>
         exists c text h,
           dumps json data = inr text /\
           history s' = EvSend c text None :: h
     | Raise e =>
         reconnect_raised e (history s') \/
         (recon_errors e = false /\
          exists s0, ws_send json w data s0 = (Raise e, s'))
     | OutOfFuel => True
     end) /\
  (forall out s',
     recv_msg json w fuel s = (out, s') ->
     match out with
     | Return x =>
         exists c wire h,
           loads json wire = inr x /\
           history s' = EvGet c (inr wire) :: h
     | Raise e =>
         reconnect_raised e (history s') \/
         (recon_errors e = false /\
          exists s0, ws_recv json w s0 = (Raise e, s'))
     | OutOfFuel => True
     end).
Proof.
  repeat split.
  - intros e s1 Hop Hrec. cbn [send_msg]. unfold try_except.
    rewrite Hop, Hrec. reflexivity.
  - intros e s1 Hop Hrec. cbn [recv_msg]. unfold try_except.
    rewrite Hop, Hrec. reflexivity.
  - intros out s'. apply send_msg_outcome.
  - intros out s'. apply recv_msg_outcome.
Qed.

Lemma recoverable_errors_reconnect_and_retry_witness :
  exists c text h,
    dumps tiny_json PNone = inr text /\
    history (snd (send_msg tiny_json blip_world 2 PNone (open_channel false))) =
    EvSend c text None :: h.
Proof.
  destruct (recoverable_errors_reconnect_and_retry
              tiny_json blip_world 2 PNone (open_channel false))
    as (_ & _ & H & _).
  apply (H (Return tt)). vm_compute. reflexivity.
Defined.

(** C1, as the specification words it, fails: a send fails with
    [ConnectionClosed], the reconnect brings the link up and the fixture
    raises a [ValueError]; this error leaves [send_msg] after one attempt
    out of 1000. *)
Lemma hook_error_escapes_send_msg :
  send_r (send_then_hook_breaks_world 0%nat) = Some ConnectionClosed /\
  recon_errors ConnectionClosed = true /\
  exists s',
    send_msg tiny_json send_then_hook_breaks_world 2 PNone (open_channel true)
    = (Raise (OtherError "ValueError"), s') /\
    attempts (history s') = 1%nat /\
    ~ only_exhaustion_propagates
        (Raise (A:=unit) (OtherError "ValueError")) (history s').
Proof.
  split; [reflexivity|]. split; [reflexivity|].
  eexists. split; [vm_compute; reflexivity|]. split; [reflexivity|].
  cbn. intros (i & h' & H). discriminate.
Qed.

(** ** JSON on the wire *)

(** C10.  [send_msg] puts [json.dumps(v)] on the wire and [recv_msg]
    hands back [json.loads] of the text it got; so when the text sent
    comes back, the value received is what decoding the encoding of [v]
    gives, and is [v] itself when the codec preserves [v].  On a link
    that works, both calls return at once. *)
Theorem send_then_recv_is_json_round_trip (json : json_module) (w : world)
    (v : pyval) (text : string) :
  dumps json v = inr text ->
  (forall fuel s s',
     send_msg json w fuel v s = (Return tt, s') ->
     exists c h, history s' = EvSend c text None :: h) /\
  (forall fuel s x s',
     recv_msg json w fuel s = (Return x, s') ->
     exists c wire h,
       history s' = EvGet c (inr wire) :: h /\
       loads json wire = inr x /\
       (wire = text -> loads json text = inr v -> x = v)) /\
  (forall fuel1 fuel2 s c x,
     _ws s = Some c ->
     send_r (w (clock s)) = None ->
     get_r (w (S (clock s))) = inr text ->
     loads json text = inr x ->
     exists s1 s2,
       send_msg json w (S fuel1) v s = (Return tt, s1) /\
       recv_msg json w (S fuel2) s1 = (Return x, s2) /\
       history s2 = EvGet c (inr text) :: EvSend c text None :: history s).
Proof.
  intros Hd. repeat split.
  - intros fuel s s' H.
    apply send_msg_outcome in H. destruct H as (c & text' & h & Hd' & Hh).
    rewrite Hd in Hd'. inversion Hd'; subst. eauto.
  - intros fuel s x s' H.
    apply recv_msg_outcome in H. destruct H as (c & wire & h & Hl & Hh).
    exists c, wire, h. repeat split; try assumption.
    intros -> Hv. congruence.
  - intros fuel1 fuel2 s c x Hws Hs Hg Hl.
    eexists _, _. cbn [send_msg recv_msg]. unfold try_except.
    rewrite ws_send_unfold, Hws, Hd, Hs.
    split; [reflexivity|].
    rewrite ws_recv_unfold. cbn [_ws clock history url fixture].
    rewrite Hg, Hl. split; reflexivity.
Qed.

Lemma send_then_recv_is_json_round_trip_witness :
  exists s1 s2,
    send_msg tiny_json quiet_world 1 PNone (open_channel false) = (Return tt, s1) /\
    recv_msg tiny_json quiet_world 1 s1 = (Return PNone, s2) /\
    history s2 = [EvGet 0%nat (inr "null"); EvSend 0%nat "null" None].
Proof.
  destruct (send_then_recv_is_json_round_trip tiny_json quiet_world PNone "null")
    as (_ & _ & H); [reflexivity|].
  apply (H 0%nat 0%nat (open_channel false) 0%nat PNone); reflexivity.
Defined.

End WebBsFacts.

(* ===================================================================== *)
(** * Facts about JSON-RPC sessions *)
(* ===================================================================== *)

Module JsonRpcFacts.
Import JsonRpc.

Section SessionFacts.

Variable json : json_module.
Variable dtype : pyval -> exn + JSONRPCResult.
Variable dumps_msg : JSONRPCResult -> exn + string.

(** ** What each phase does to the session *)

Lemma recv_task_step_return frame st st' :
  recv_task_step dtype dumps_msg frame st = (Return tt, st') ->
  exists msg,
    dtype frame = inr msg /\
    rpc_id st' = rpc_id st /\
    sent st' = sent st /\
    waiting st' = waiting st /\
    rpc_results st' = <[id msg := mkSlot (Some msg) true]> (rpc_results st).
Proof.
  unfold recv_task_step, setdefault. intros H.
  destruct (dtype frame) as [e|msg]; [discriminate|].
  exists msg. split; [reflexivity|].
  destruct (rpc_results st !! id msg) as [sl|] eqn:Hl.
  - inversion H; subst; cbn. auto.
  - destruct (dumps_msg msg) as [e|text]; [discriminate|].
    inversion H; subst; cbn. repeat split.
    apply insert_insert_eq.
Qed.

Lemma json_rpc_wait_fields _id sending st :
  let st' := snd (json_rpc_wait _id sending st) in
  rpc_id st' = rpc_id st /\ sent st' = sent st /\
  rpc_results st' = rpc_results st /\
  (forall i, i ∈ waiting st' ->
     i ∈ waiting st \/ (i = _id /\ is_Some (rpc_results st !! _id))).
Proof.
  unfold json_rpc_wait. destruct sending as [[]|e|]; cbn.
  - destruct (rpc_results st !! _id) eqn:Hl; cbn; repeat split; auto.
    intros i Hi. apply elem_of_union in Hi. destruct Hi as [Hi|Hi]; auto.
    apply elem_of_singleton in Hi. right. split; [exact Hi|eauto].
  - repeat split; auto.
  - repeat split; auto.
Qed.

(** Where [json_rpc_resume] finds a slot, the session it leaves is the
    same whatever the call then does. *)
Lemma json_rpc_resume_state _id st sl :
  rpc_results st !! _id = Some sl ->
  snd (json_rpc_resume json _id st) =
  mkSession (rpc_id st) (delete _id (rpc_results st))
            (waiting st ∖ {[_id]}) (sent st) (warnings st).
Proof.
  intros Hl. unfold json_rpc_resume. rewrite Hl.
  destruct (slot_result sl) as [r|]; [|reflexivity].
  destruct (error r); try reflexivity;
    destruct (dumps_indent4 json _); reflexivity.
Qed.

Lemma json_rpc_resume_missing _id st :
  rpc_results st !! _id = None ->
  json_rpc_resume json _id st = (Raise KeyError, st).
Proof. intros Hl. unfold json_rpc_resume. now rewrite Hl. Qed.

Lemma json_rpc_resume_deletes _id st :
  rpc_results (snd (json_rpc_resume json _id st)) !! _id = None.
Proof.
  destruct (rpc_results st !! _id) as [sl|] eqn:Hl.
  - rewrite (json_rpc_resume_state _ _ _ Hl). cbn. apply lookup_delete_eq.
  - rewrite (json_rpc_resume_missing _ _ Hl). exact Hl.
Qed.

Lemma woken_has_slot st _id :
  woken st _id = true ->
  _id ∈ waiting st /\
  exists sl, rpc_results st !! _id = Some sl /\ slot_event sl = true.
Proof.
  unfold woken. intros H. apply andb_true_iff in H. destruct H as [Hw Hs].
  apply bool_decide_eq_true in Hw. split; [exact Hw|].
  destruct (rpc_results st !! _id) as [sl|]; [eauto|discriminate].
Qed.

(** ** Invariants of a session *)

Lemma step_waiters_have_slots a st st' :
  step json dtype dumps_msg a st = Some st' ->
  waiters_have_slots st -> waiters_have_slots st'.
Proof.
  unfold waiters_have_slots. intros Hstep Hinv.
  destruct a as [method params sending|frame|_id]; cbn in Hstep.
  - inversion Hstep; subst; clear Hstep. intros i Hi.
    pose proof (json_rpc_wait_fields (rpc_id st) sending
      (snd (json_rpc_request method params st))) as (_ & _ & Hres & Hwait).
    cbn zeta in *. unfold json_rpc_request in *. cbn [snd] in *.
    rewrite Hres. cbn [rpc_results waiting] in *.
    destruct (Hwait i Hi) as [Hold|[-> Hnew]].
    + destruct (decide (i = rpc_id st)) as [->|Hne].
      * rewrite lookup_insert_eq. eauto.
      * rewrite lookup_insert_ne by congruence. auto.
    + exact Hnew.
  - destruct (recv_task_step dtype dumps_msg frame st) as [[[]|e|] st1] eqn:Hr;
      try discriminate.
    inversion Hstep; subst; clear Hstep.
    apply recv_task_step_return in Hr.
    destruct Hr as (msg & _ & _ & _ & Hw & Hres).
    intros i Hi. rewrite Hw in Hi. rewrite Hres.
    destruct (decide (i = id msg)) as [->|Hne].
    + rewrite lookup_insert_eq. eauto.
    + rewrite lookup_insert_ne by congruence. auto.
  - destruct (woken st _id) eqn:Hwoken; [|discriminate].
    inversion Hstep; subst; clear Hstep.
    apply woken_has_slot in Hwoken. destruct Hwoken as (_ & sl & Hl & _).
    rewrite (json_rpc_resume_state _ _ _ Hl). cbn. intros i Hi.
    apply elem_of_difference in Hi. destruct Hi as [Hi Hne].
    rewrite lookup_delete_ne by set_solver. auto.
Qed.

Lemma run_waiters_have_slots : forall acts st st',
  run json dtype dumps_msg acts st = Some st' ->
  waiters_have_slots st -> waiters_have_slots st'.
Proof.
  induction acts as [|a acts IH]; intros st st' Hrun Hinv; cbn in Hrun.
  - inversion Hrun; subst. exact Hinv.
  - destruct (step json dtype dumps_msg a st) as [st1|] eqn:Hstep;
      [|discriminate].
    eapply IH; [exact Hrun|]. eapply step_waiters_have_slots; eauto.
Qed.

Lemma open_session_waiters start_id :
  waiters_have_slots (open_jsonrpc_session start_id).
Proof. intros i Hi. cbn in Hi. set_solver. Qed.


(** ** Unmatched frames *)

(** C3.  A frame whose id has no slot ends the receive loop instead of
    being logged and dropped: building the text of the warning comes
    first, and when [json.dumps] raises on the response instance (it does
    with the standard library: [dumps_msg_fails]), the error leaves
    [recv_task] before anything is logged or stored.  The session is left
    as it was, no frame that follows is handled, and the turn is not the
    harmless one the specification describes. *)
Theorem unmatched_frame_ends_recv_task (st : session) (frame : pyval)
    (msg : JSONRPCResult) (e : exn) (later : list action) :
  dtype frame = inr msg ->
  rpc_results st !! id msg = None ->
  dumps_msg msg = inl e ->
  recv_task_step dtype dumps_msg frame st = (Raise e, st) /\
  step json dtype dumps_msg (ARecv frame) st = None /\
  run json dtype dumps_msg (ARecv frame :: later) st = None /\
  ~ discards_unmatched dtype dumps_msg frame st.
Proof.
  intros Hd Hl Hlog.
  assert (Hr : recv_task_step dtype dumps_msg frame st = (Raise e, st)).
  { unfold recv_task_step. rewrite Hd, Hl, Hlog. reflexivity. }
  assert (Hs : step json dtype dumps_msg (ARecv frame) st = None).
  { cbn [step]. rewrite Hr. reflexivity. }
  split; [exact Hr|]. split; [exact Hs|]. split.
  - cbn [run]. rewrite Hs. reflexivity.
  - intros (st' & Hret & _). rewrite Hr in Hret. discriminate.
Qed.

(** ** The end of a call *)

(** C4, as the code has it.  A call is made, its request goes out and its
    response comes in.  The call can then run again; if the response has
    an [error], it raises an [Exception] whose message is that error
    serialised by [json.dumps(..., indent=4)]; otherwise it returns the
    response instance itself, whose [result] field holds the payload. *)
Theorem call_ends_by_error_field (st : session) (method : string)
    (params frame : pyval) (msg : JSONRPCResult) :
  let _id := fst (json_rpc_request method params st) in
  let st1 := snd (json_rpc_request method params st) in
  let st2 := snd (json_rpc_wait _id (Return tt) st1) in
  dtype frame = inr msg ->
  id msg = _id ->
  exists st3,
    recv_task_step dtype dumps_msg frame st2 = (Return tt, st3) /\
    woken st3 _id = true /\
    (error msg = PNone ->
     fst (json_rpc_resume json _id st3) = Return (Response msg)) /\
    (forall text,
       error msg <> PNone ->
       dumps_indent4 json (error msg) = inr text ->
       fst (json_rpc_resume json _id st3) = Raise (PyException text)).
Proof.
  intros _id st1 st2 Hd Hid.
  assert (Hst2 : st2 = mkSession (rpc_id st + 1)
                         (<[_id := mkSlot None false]> (rpc_results st))
                         ({[_id]} ∪ waiting st)
                         (request_frame _id method params :: sent st)
                         (warnings st)).
  { subst st2 st1 _id. unfold json_rpc_wait, json_rpc_request. cbn.
    rewrite lookup_insert_eq. reflexivity. }
  rewrite Hst2. unfold recv_task_step, setdefault. rewrite Hd, Hid. cbn.
  rewrite lookup_insert_eq. eexists. split; [reflexivity|].
  unfold woken, json_rpc_resume. cbn. rewrite !lookup_insert_eq. cbn.
  repeat split.
  - rewrite bool_decide_eq_true_2 by set_solver. reflexivity.
  - intros ->. reflexivity.
  - intros text Hne Htext.
    destruct (error msg); [congruence|..]; rewrite Htext; reflexivity.
Qed.

(** ** Correlation ids *)

Lemma run_sent : forall acts st st',
  run json dtype dumps_msg acts st = Some st' ->
  rev (sent st') = (rev (sent st) ++ frames_from (rpc_id st) (calls_of acts))%list /\
  rpc_id st' = rpc_id st + Z.of_nat (length (calls_of acts)).
Proof.
  induction acts as [|a acts IH]; intros st st' Hrun; cbn in Hrun.
  - inversion Hrun; subst. cbn. rewrite app_nil_r. split; [reflexivity|lia].
  - destruct (step json dtype dumps_msg a st) as [st1|] eqn:Hstep;
      [|discriminate].
    apply IH in Hrun. destruct Hrun as [Hsent Hid].
    destruct a as [method params sending|frame|_id]; cbn in Hstep.
    + inversion Hstep; subst; clear Hstep.
      pose proof (json_rpc_wait_fields (rpc_id st) sending
        (snd (json_rpc_request method params st))) as (Hi & Hs & _).
      cbn zeta in *. unfold json_rpc_request in *. cbn [snd] in *.
      rewrite Hs in Hsent. rewrite Hi in Hsent, Hid.
      cbn [rpc_id sent] in *.
      cbn [calls_of frames_from length]. split.
      * rewrite Hsent. cbn [rev]. rewrite <- app_assoc. reflexivity.
      * lia.
    + destruct (recv_task_step dtype dumps_msg frame st)
        as [[[]|e|] st2] eqn:Hr; try discriminate.
      inversion Hstep; subst; clear Hstep.
      apply recv_task_step_return in Hr.
      destruct Hr as (msg & _ & Hi & Hs & _).
      rewrite Hs in Hsent. rewrite Hi in Hsent, Hid. auto.
    + destruct (woken st _id) eqn:Hwoken; [|discriminate].
      inversion Hstep; subst; clear Hstep.
      apply woken_has_slot in Hwoken. destruct Hwoken as (_ & sl & Hl & _).
      rewrite (json_rpc_resume_state _ _ _ Hl) in Hsent, Hid.
      cbn [rpc_id sent] in *. auto.
Qed.

Lemma frames_from_lookup : forall calls first n method params,
  calls !! n = Some (method, params) ->
  frames_from first calls !! n =
  Some (request_frame (first + Z.of_nat n) method params).
Proof.
  induction calls as [|[m p] calls IH]; intros first n method params Hn.
  - destruct n; discriminate.
  - destruct n as [|n]; cbn [frames_from].
    + inversion Hn; subst. rewrite Z.add_0_r. reflexivity.
    + change ((?x :: ?l) !! S n) with (l !! n) in *.
      rewrite (IH (first + 1) n method params Hn). do 2 f_equal. lia.
Qed.

(** C8.  Whatever else happens in a session opened at [start_id], the
    frames it hands to the channel are, in order, one per call; the call
    number [n] (from 0) carries the id [start_id + n], so the first one
    carries [start_id] and each next one the previous id plus one; and a
    frame is the dict with exactly the keys [jsonrpc], [id], [method] and
    [params]. *)
Theorem correlation_ids_count_up (start_id : Z) (acts : list action)
    (st : session) :
  run json dtype dumps_msg acts (open_jsonrpc_session start_id) = Some st ->
  rev (sent st) = frames_from start_id (calls_of acts) /\
  (forall n method params,
     calls_of acts !! n = Some (method, params) ->
     rev (sent st) !! n =
     Some (PDict [("jsonrpc", PStr "2.0"); ("id", PInt (start_id + Z.of_nat n));
                  ("method", PStr method); ("params", params)])) /\
  rpc_id st = start_id + Z.of_nat (length (calls_of acts)).
Proof.
  intros Hrun. apply run_sent in Hrun. cbn in Hrun.
  destruct Hrun as [Hsent Hid]. repeat split; try assumption.
  intros n method params Hn. rewrite Hsent.
  apply (frames_from_lookup _ _ _ _ _ Hn).
Qed.

(** ** Slots of finished calls *)

Lemma step_slots_below_counter a st st' finished :
  matched dtype a st = true ->
  step json dtype dumps_msg a st = Some st' ->
  slots_below_counter finished st ->
  slots_below_counter (resumed_of [a] ++ finished)%list st'.
Proof.
  unfold slots_below_counter. intros Hm Hstep [Hdom Hfin].
  destruct a as [method params sending|frame|_id]; cbn in Hstep, Hm |- *.
  - inversion Hstep; subst; clear Hstep.
    pose proof (json_rpc_wait_fields (rpc_id st) sending
      (snd (json_rpc_request method params st))) as (Hi & _ & Hres & _).
    cbn zeta in *. unfold json_rpc_request in *. cbn [snd] in *.
    rewrite Hi, Hres. cbn [rpc_id rpc_results]. split.
    + intros i Hsome. destruct (decide (i = rpc_id st)) as [->|Hne]; [lia|].
      rewrite lookup_insert_ne in Hsome by congruence.
      apply Hdom in Hsome. lia.
    + intros i Hin. destruct (Hfin i Hin) as [Hlt Hnone]. split; [lia|].
      rewrite lookup_insert_ne by lia. exact Hnone.
  - destruct (recv_task_step dtype dumps_msg frame st) as [[[]|e|] st1] eqn:Hr;
      try discriminate.
    inversion Hstep; subst; clear Hstep.
    apply recv_task_step_return in Hr.
    destruct Hr as (msg & Hd & Hi & _ & _ & Hres).
    rewrite Hd in Hm. apply bool_decide_eq_true in Hm.
    rewrite Hi, Hres. split.
    + intros i Hsome. destruct (decide (i = id msg)) as [->|Hne]; [auto|].
      rewrite lookup_insert_ne in Hsome by congruence. auto.
    + intros i Hin. destruct (Hfin i Hin) as [Hlt Hnone]. split; [exact Hlt|].
      rewrite lookup_insert_ne; [exact Hnone|].
      intros <-. rewrite Hnone in Hm. destruct Hm as [? ?]. discriminate.
  - destruct (woken st _id) eqn:Hwoken; [|discriminate].
    inversion Hstep; subst; clear Hstep.
    apply woken_has_slot in Hwoken. destruct Hwoken as (_ & sl & Hl & _).
    rewrite (json_rpc_resume_state _ _ _ Hl). cbn. split.
    + intros i Hsome. apply Hdom.
      destruct (decide (i = _id)) as [->|Hne].
      * rewrite lookup_delete_eq in Hsome. destruct Hsome as [? ?]. discriminate.
      * rewrite lookup_delete_ne in Hsome by congruence. exact Hsome.
    + intros i [<-|Hin].
      * split; [apply Hdom; eauto | apply lookup_delete_eq].
      * destruct (Hfin i Hin) as [Hlt Hnone]. split; [exact Hlt|].
        destruct (decide (i = _id)) as [->|Hne].
        -- apply lookup_delete_eq.
        -- rewrite lookup_delete_ne by congruence. exact Hnone.
Qed.

Lemma run_matched_slots_below_counter : forall acts st st' finished,
  run_matched json dtype dumps_msg acts st = Some st' ->
  slots_below_counter finished st ->
  forall i, In i (resumed_of acts) \/ In i finished ->
            rpc_results st' !! i = None.
Proof.
  induction acts as [|a acts IH]; intros st st' finished Hrun Hinv i Hi;
    cbn in Hrun.
  - inversion Hrun; subst. destruct Hi as [[]|Hi]. apply Hinv. exact Hi.
  - destruct (matched dtype a st) eqn:Hm; [|discriminate].
    destruct (step json dtype dumps_msg a st) as [st1|] eqn:Hstep;
      [|discriminate].
    pose proof (step_slots_below_counter _ _ _ _ Hm Hstep Hinv) as Hinv1.
    eapply IH; [exact Hrun | exact Hinv1 |].
    rewrite in_app_iff.
    destruct Hi as [Hi|Hi]; [|auto].
    destruct a; cbn in Hi |- *; auto. destruct Hi as [<-|Hi]; auto.
Qed.

(** C9.  When a call runs again after its event was set, its slot is
    deleted before the call returns or raises, whatever the response was.
    Hence, in a session all of whose inbound frames answer a call that
    still has its slot, no call that has finished has a slot left. *)
Theorem finished_calls_leave_no_slot (start_id : Z) (acts : list action)
    (st : session) :
  run_matched json dtype dumps_msg acts (open_jsonrpc_session start_id)
  = Some st ->
  (forall _id st0,
     rpc_results (snd (json_rpc_resume json _id st0)) !! _id = None) /\
  (forall _id, In (AResume _id) acts -> rpc_results st !! _id = None).
Proof.
  intros Hrun. split.
  - intros _id st0. apply json_rpc_resume_deletes.
  - intros _id Hin.
    eapply (run_matched_slots_below_counter acts _ st []); [exact Hrun | |].
    + split.
      * intros i [sl Hsl]. cbn in Hsl. rewrite lookup_empty in Hsl. discriminate.
      * intros i [].
    + left. clear Hrun. induction acts as [|a acts IH]; [destruct Hin|].
      destruct Hin as [->|Hin]; [left; reflexivity|].
      destruct a; cbn; auto.
Qed.

End SessionFacts.

(** ** The theorems on a small session *)

(** Call 0 is suspended when [{"id": 7, "result": None}] comes in: the
    receive loop ends with [TypeError], and the response to call 0 that
    follows is never handled. *)
Lemma unmatched_frame_ends_recv_task_witness :
  recv_task_step JSONRPCResult_init dumps_msg_fails stray_frame pending_call
  = (Raise TypeError, pending_call) /\
  step tiny_json JSONRPCResult_init dumps_msg_fails (ARecv stray_frame)
       pending_call = None /\
  run tiny_json JSONRPCResult_init dumps_msg_fails
      (ARecv stray_frame :: [ARecv ok_frame; AResume 0]) pending_call = None /\
  ~ discards_unmatched JSONRPCResult_init dumps_msg_fails stray_frame
      pending_call.
Proof.
  apply (unmatched_frame_ends_recv_task tiny_json JSONRPCResult_init
           dumps_msg_fails pending_call stray_frame
           (mkResult "2.0" 7 PNone PNone) TypeError
           [ARecv ok_frame; AResume 0]).
  - reflexivity.
  - unfold pending_call, json_rpc_wait. cbn. rewrite lookup_insert_eq. cbn.
    rewrite lookup_insert_ne by lia. apply lookup_empty.
  - reflexivity.
Defined.

Lemma call_ends_by_error_field_witness :
  exists st3,
    recv_task_step JSONRPCResult_init dumps_msg_fails error_frame
      (snd (json_rpc_wait 0 (Return tt)
              (snd (json_rpc_request "ping" PNone (open_jsonrpc_session 0)))))
    = (Return tt, st3) /\
    woken st3 0 = true /\
    (PDict [] = PNone ->
     fst (json_rpc_resume tiny_json 0 st3) =
     Return (Response (mkResult "2.0" 0 PNone (PDict [])))) /\
    (forall text,
       PDict [] <> PNone ->
       dumps_indent4 tiny_json (PDict []) = inr text ->
       fst (json_rpc_resume tiny_json 0 st3) = Raise (PyException text)).
Proof.
  apply (call_ends_by_error_field tiny_json JSONRPCResult_init dumps_msg_fails
           (open_jsonrpc_session 0) "ping" PNone error_frame
           (mkResult "2.0" 0 PNone (PDict []))); reflexivity.
Defined.

(** C4, as the specification words it, fails in its second half: the
    response [{"id": 0, "result": {"ok": True}}] has no error, and the
    call returns the response instance, not the payload of its [result]
    field. *)
Lemma call_returns_response_not_payload :
  let answered :=
    mkSession (0 + 1)
      (<[0 := mkSlot (Some (mkResult "2.0" 0 (PDict [("ok", PBool true)]) PNone))
                     true]>
         (<[0 := mkSlot None false]> ∅))
      ({[0]} ∪ ∅) [request_frame 0 "ping" PNone] [] in
  run tiny_json JSONRPCResult_init dumps_msg_fails
      [ACall "ping" PNone (Return tt); ARecv ok_frame]
      (open_jsonrpc_session 0) = Some answered /\
  woken answered 0 = true /\
  fst (json_rpc_resume tiny_json 0 answered) =
  Return (Response (mkResult "2.0" 0 (PDict [("ok", PBool true)]) PNone)) /\
  fst (json_rpc_resume tiny_json 0 answered) <>
  Return (Plain (PDict [("ok", PBool true)])).
Proof.
  intros answered.
  assert (H : fst (json_rpc_resume tiny_json 0 answered)
              = Return (Response (mkResult "2.0" 0
                                   (PDict [("ok", PBool true)]) PNone))).
  { unfold json_rpc_resume, answered. cbn [rpc_results].
    rewrite lookup_insert_eq. reflexivity. }
  split; [|split; [|split]].
  - cbn. unfold recv_task_step, setdefault, json_rpc_wait. cbn.
    rewrite !lookup_insert_eq. cbn. rewrite !lookup_insert_eq.
    reflexivity.
  - unfold woken, answered. cbn [rpc_results waiting].
    rewrite lookup_insert_eq.
    rewrite bool_decide_eq_true_2 by set_solver. reflexivity.
  - exact H.
  - rewrite H. discriminate.
Qed.

Lemma correlation_ids_count_up_witness :
  exists st,
    run tiny_json JSONRPCResult_init dumps_msg_fails
        [ACall "ping" PNone (Return tt); ARecv ok_frame; AResume 0;
         ACall "pong" (PBool true) (Return tt)]
        (open_jsonrpc_session 0) = Some st /\
    rev (sent st) =
      [request_frame 0 "ping" PNone; request_frame 1 "pong" (PBool true)].
Proof.
  destruct (run tiny_json JSONRPCResult_init dumps_msg_fails
              [ACall "ping" PNone (Return tt); ARecv ok_frame; AResume 0;
               ACall "pong" (PBool true) (Return tt)]
              (open_jsonrpc_session 0)) as [st|] eqn:Hrun.
  - exists st. split; [reflexivity|].
    apply (correlation_ids_count_up tiny_json JSONRPCResult_init dumps_msg_fails
             0 _ st Hrun).
  - vm_compute in Hrun. discriminate.
Defined.

Lemma finished_calls_leave_no_slot_witness :
  exists st,
    run_matched tiny_json JSONRPCResult_init dumps_msg_fails
        [ACall "ping" PNone (Return tt); ARecv error_frame; AResume 0]
        (open_jsonrpc_session 0) = Some st /\
    rpc_results st !! 0 = None.
Proof.
  destruct (run_matched tiny_json JSONRPCResult_init dumps_msg_fails
              [ACall "ping" PNone (Return tt); ARecv error_frame; AResume 0]
              (open_jsonrpc_session 0)) as [st|] eqn:Hrun.
  - exists st. split; [reflexivity|].
    apply (finished_calls_leave_no_slot tiny_json JSONRPCResult_init
             dumps_msg_fails 0 _ st Hrun).
    right. right. left. reflexivity.
  - vm_compute in Hrun. discriminate.
Defined.

End JsonRpcFacts.

(* ===================================================================== *)
(** * Facts about messages and the dialog table *)
(* ===================================================================== *)

Module MessagesFacts.
Import Messages.

Lemma fill_missing_required kwargs f : forall fields,
  In f fields -> fdefault f = None -> lookup_kw (fname f) kwargs = None ->
  is_error (fill fields kwargs) = true.
Proof.
  induction fields as [|g fields IH]; intros Hin Hreq Hmiss; [destruct Hin|].
  cbn [fill]. destruct Hin as [->|Hin].
  - rewrite Hmiss, Hreq. reflexivity.
  - destruct (match lookup_kw (fname g) kwargs with
              | Some v => if enum_ok (ftyp g) v then Some v else None
              | None => fdefault g
              end); [|reflexivity].
    specialize (IH Hin Hreq Hmiss).
    destruct (fill fields kwargs); [discriminate|reflexivity].
Qed.

Lemma fill_bad_enum kwargs f allowed v : forall fields,
  In f fields -> ftyp f = TLiteral allowed ->
  lookup_kw (fname f) kwargs = Some v -> in_literal allowed v = false ->
  is_error (fill fields kwargs) = true.
Proof.
  induction fields as [|g fields IH]; intros Hin Hty Hv Hbad; [destruct Hin|].
  cbn [fill]. destruct Hin as [->|Hin].
  - rewrite Hv. unfold enum_ok. rewrite Hty, Hbad. reflexivity.
  - destruct (match lookup_kw (fname g) kwargs with
              | Some v => if enum_ok (ftyp g) v then Some v else None
              | None => fdefault g
              end); [|reflexivity].
    specialize (IH Hin Hty Hv Hbad).
    destruct (fill fields kwargs); [discriminate|reflexivity].
Qed.

Lemma fill_default kwargs f : forall fields msg,
  fill fields kwargs = Built msg ->
  In f fields -> lookup_kw (fname f) kwargs = None ->
  exists d, fdefault f = Some d /\ In (fname f, d) msg.
Proof.
  induction fields as [|g fields IH]; intros msg Hfill Hin Hmiss;
    [destruct Hin|].
  cbn [fill] in Hfill.
  destruct (match lookup_kw (fname g) kwargs with
            | Some v => if enum_ok (ftyp g) v then Some v else None
            | None => fdefault g
            end) as [v|] eqn:Hg; [|discriminate].
  destruct (fill fields kwargs) as [msg'|] eqn:Hrest; [|discriminate].
  inversion Hfill; subst; clear Hfill.
  destruct Hin as [->|Hin].
  - rewrite Hmiss in Hg. exists v. split; [exact Hg|left; reflexivity].
  - destruct (IH msg' eq_refl Hin Hmiss) as (d & Hd & Hind).
    exists d. split; [exact Hd|right; exact Hind].
Qed.

Lemma construct_error_of_fill fields kwargs :
  is_error (fill fields kwargs) = true ->
  is_error (construct fields kwargs) = true.
Proof.
  unfold construct. destruct (find _ kwargs); [reflexivity|auto].
Qed.

Lemma construct_built fields kwargs msg :
  construct fields kwargs = Built msg -> fill fields kwargs = Built msg.
Proof.
  unfold construct. destruct (find _ kwargs); [discriminate|auto].
Qed.

Lemma taxonomy_field_names :
  Forall (fun cls => NoDup (map fname (snd cls))) taxonomy.
Proof.
  repeat constructor; apply (bool_decide_unpack _); vm_compute; exact I.
Qed.

(** C5.  For each message class of the module: its fields have distinct
    names; constructing it without one of its fields that has no default,
    or with a value outside the listed strings for a [Literal] field, is a
    [SchemaError]; a field that has a default may be left out and then
    takes that default. *)
Theorem construction_is_validated (name : string) (fields : list field)
    (kwargs : list (string * pyval)) :
  In (name, fields) taxonomy ->
  NoDup (map fname fields) /\
  (forall f, In f fields -> fdefault f = None ->
     lookup_kw (fname f) kwargs = None ->
     is_error (construct fields kwargs) = true) /\
  (forall f allowed v, In f fields -> ftyp f = TLiteral allowed ->
     lookup_kw (fname f) kwargs = Some v -> in_literal allowed v = false ->
     is_error (construct fields kwargs) = true) /\
  (forall f msg, In f fields -> lookup_kw (fname f) kwargs = None ->
     construct fields kwargs = Built msg ->
     exists d, fdefault f = Some d /\ In (fname f, d) msg).
Proof.
  intros Hcls. repeat split.
  - pose proof taxonomy_field_names as Hall.
    rewrite List.Forall_forall in Hall. apply (Hall _ Hcls).
  - intros f Hin Hreq Hmiss. apply construct_error_of_fill.
    eapply fill_missing_required; eauto.
  - intros f allowed v Hin Hty Hv Hbad. apply construct_error_of_fill.
    eapply fill_bad_enum; eauto.
  - intros f msg Hin Hmiss Hbuilt. apply construct_built in Hbuilt.
    eapply fill_default; eauto.
Qed.

Lemma construction_is_validated_witness :
  is_error (construct Order hold_order) = true.
Proof.
  destruct (construction_is_validated "Order" Order hold_order)
    as (_ & _ & Henum & _); [left; reflexivity|].
  apply (Henum (required "action" (TLiteral ["buy"; "sell"; "alert"]))
               ["buy"; "sell"; "alert"] (PStr "hold"));
    [left; reflexivity | reflexivity | reflexivity | reflexivity].
Defined.

(** The order of the specification's scenario is built, [brokers] taking
    its default; without [oid] it is not. *)
Example buy_order_built :
  construct Order buy_order =
  Built (buy_order ++ [("brokers", PList [])])%list /\
  construct Order (List.filter (fun kv => negb (String.eqb (fst kv) "oid"))
                               buy_order) = SchemaError "oid".
Proof. split; reflexivity. Qed.

End MessagesFacts.

Module RoutingFacts.
Import Routing.

Lemma binding_insert dialogs o d :
  binding (<[o := d]> dialogs) o = bound_reqid d.
Proof. unfold binding. rewrite lookup_insert_eq. reflexivity. Qed.

Lemma on_brokerd_ack_keeps_binding ack dialogs o r :
  binding dialogs o = Some r ->
  binding (snd (on_brokerd_ack ack dialogs)) o = Some r.
Proof.
  unfold on_brokerd_ack. intros Hb.
  destruct (dialogs !! oid ack) as [d|] eqn:Hl; [|exact Hb].
  destruct (bound_reqid d) as [r'|] eqn:Hd.
  - destruct (decide (r' = reqid ack)); exact Hb.
  - cbn. destruct (decide (o = oid ack)) as [->|Hne].
    + unfold binding in Hb. rewrite Hl in Hb. cbn in Hb. congruence.
    + unfold binding in *. rewrite lookup_insert_ne by congruence. exact Hb.
Qed.

Lemma on_brokerd_acks_keep_binding o r : forall acks dialogs,
  binding dialogs o = Some r ->
  binding (on_brokerd_acks acks dialogs) o = Some r.
Proof.
  unfold on_brokerd_acks.
  induction acks as [|ack acks IH]; intros dialogs Hb; [exact Hb|].
  cbn [foldl]. apply IH. apply on_brokerd_ack_keeps_binding. exact Hb.
Qed.

(** C6.  Once [on_brokerd_ack] has accepted an ack, the dialog of its
    [oid] is bound to its [reqid]; a later ack for that [oid] with another
    [reqid] is answered by [RebindError] and leaves the table as it was;
    and the binding stays the same through any further acks. *)
Theorem ack_binding_is_immutable (dialogs dialogs' : gmap string dialog)
    (ack : BrokerdOrderAck) :
  on_brokerd_ack ack dialogs = (None, dialogs') ->
  binding dialogs' (oid ack) = Some (reqid ack) /\
  (forall ack2,
     oid ack2 = oid ack -> reqid ack2 <> reqid ack ->
     on_brokerd_ack ack2 dialogs' = (Some RebindError, dialogs')) /\
  (forall acks,
     binding (on_brokerd_acks acks dialogs') (oid ack) = Some (reqid ack)).
Proof.
  intros Hack.
  assert (Hb : binding dialogs' (oid ack) = Some (reqid ack)).
  { unfold on_brokerd_ack in Hack.
    destruct (dialogs !! oid ack) as [d|] eqn:Hl; [|discriminate].
    destruct (bound_reqid d) as [r|] eqn:Hd.
    - destruct (decide (r = reqid ack)) as [->|]; [|discriminate].
      inversion Hack; subst. unfold binding. rewrite Hl. exact Hd.
    - inversion Hack; subst. apply binding_insert. }
  split; [exact Hb|]. split.
  - intros ack2 Hoid Hne. unfold on_brokerd_ack. rewrite Hoid.
    unfold binding in Hb.
    destruct (dialogs' !! oid ack) as [d|]; [|discriminate].
    cbn in Hb. rewrite Hb.
    destruct (decide (reqid ack = reqid ack2)); [congruence|reflexivity].
  - intros acks. apply on_brokerd_acks_keep_binding. exact Hb.
Qed.

Lemma ack_binding_is_immutable_witness :
  binding (<["a1" := mkDialog (Some (ReqStr "b1"))]> submitted) "a1"
  = Some (ReqStr "b1") /\
  on_brokerd_ack (mkAck "ack" (ReqStr "b2") "a1" "")
                 (<["a1" := mkDialog (Some (ReqStr "b1"))]> submitted)
  = (Some RebindError, <["a1" := mkDialog (Some (ReqStr "b1"))]> submitted).
Proof.
  destruct (ack_binding_is_immutable submitted
              (<["a1" := mkDialog (Some (ReqStr "b1"))]> submitted)
              (mkAck "ack" (ReqStr "b1") "a1" ""))
    as (Hb & Hrebind & _).
  - unfold on_brokerd_ack, submitted. cbn [oid reqid].
    rewrite lookup_singleton_eq. reflexivity.
  - split; [exact Hb|].
    apply (Hrebind (mkAck "ack" (ReqStr "b2") "a1" "")); [reflexivity|].
    cbn. congruence.
Defined.

End RoutingFacts.

(* ===================================================================== *)
(** * More facts about the channel *)
(* ===================================================================== *)

Module AutoreconFacts.
Import WebBs Autorecon WebBsFacts.

(** ** The events of [_connect] *)

Lemma close_loop_events w : forall fuel s out s',
  close_loop w fuel s = (out, s') ->
  exists cl,
    history s' = (cl ++ history s)%list /\
    forallb in_close_loop cl = true /\
    (forall u, out = Return u -> exists cl', cl = EvAclose None :: cl').
Proof.
  induction fuel as [|fuel IH]; intros s out s' H.
  - inversion H; subst. exists []. repeat split. intros u Hu. discriminate.
  - rewrite close_loop_unfold in H. cbn zeta in H.
    destruct (aclose_r (w (clock s))) as [e0|] eqn:Hr.
    + destruct (close_retry_errors e0).
      * apply IH in H. cbn [history] in H.
        destruct H as (cl & Hh & Hall & Hret).
        exists (cl ++ [EvSleep half_second; EvAclose (Some e0)])%list.
        rewrite <- app_assoc. split; [exact Hh|]. split.
        -- rewrite forallb_app, Hall. reflexivity.
        -- intros u Hu. destruct (Hret u Hu) as [cl' ->].
           eexists. reflexivity.
      * inversion H; subst. exists [EvAclose (Some e0)].
        repeat split. intros u Hu. discriminate.
    + inversion H; subst. exists [EvAclose None]. repeat split.
      intros u _. exists []. reflexivity.
Qed.


Lemma connect_attempt_events w s out s1 :
  connect_attempt w s = (out, s1) ->
  exists att,
    history s1 = (att ++ history s)%list /\
    forallb in_attempts att = true /\ att <> [].
Proof.
  rewrite connect_attempt_unfold. cbn zeta. intros H.
  destruct (open_r (w (clock s))) as [e|c].
  - inversion H; subst. exists [EvOpen (url s) (inl e)]. repeat split. discriminate.
  - destruct (fixture s).
    + destruct (fixture_r (w (S (clock s)))) as [e|[]];
        inversion H; subst;
        first [ eexists [_; _];
                split; [reflexivity|split; [reflexivity|discriminate]]
              | eexists [_; _; _];
                split; [reflexivity|split; [reflexivity|discriminate]] ].
    + inversion H; subst. exists [EvLogInfo; EvOpen (url s) (inr c)].
      repeat split. discriminate.
Qed.

Lemma connect_attempts_events w : forall r i last s out s',
  connect_attempts w r i last s = (out, s') ->
  exists att,
    history s' = (att ++ history s)%list /\
    forallb in_attempts att = true /\ att <> [].
Proof.
  induction r as [|r IH]; intros i last s out s' H.
  - rewrite connect_attempts_zero in H. inversion H; subst.
    exists [EvLogException]. repeat split. discriminate.
  - rewrite connect_attempts_unfold in H.
    destruct (connect_attempt w s) as [[c|e|] s1] eqn:Hatt;
      apply connect_attempt_events in Hatt;
      destruct Hatt as (att & Hh & Hall & Hne).
    + inversion H; subst. eauto.
    + destruct (recon_errors e).
      * apply IH in H. cbn [history] in H.
        destruct H as (att' & Hh' & Hall' & _).
        exists (att' ++ EvSleep half_second :: EvLogError i e :: att)%list.
        rewrite Hh', Hh, <- app_assoc. split; [reflexivity|].
        split; [|destruct att'; discriminate].
        rewrite forallb_app, Hall'. cbn. exact Hall.
      * inversion H; subst. eauto.
    + inversion H; subst. eauto.
Qed.

Lemma connect_events (w : world) (fuel : nat) (tries : Z) (s : NoBsWs) :
  exists cl att,
    history (snd (_connect w fuel tries s)) = (att ++ cl ++ history s)%list /\
    forallb in_close_loop cl = true /\
    forallb in_attempts att = true /\
    forallb (fun ev => negb (is_open ev)) cl = true /\
    forallb (fun ev => match ev with EvAclose _ => false | _ => true end) att
    = true /\
    (att <> [] -> exists cl', cl = EvAclose None :: cl').
Proof.
  unfold _connect, bind.
  destruct (close_loop w fuel s) as [[[]|e|] s0] eqn:Hclose;
    apply close_loop_events in Hclose;
    destruct Hclose as (cl & Hh & Hall & Hret).
  - destruct (connect_attempts w (Z.to_nat tries) 0 None s0) as [out s'] eqn:Hatt.
    apply connect_attempts_events in Hatt.
    destruct Hatt as (att & Hh' & Hall' & _).
    exists cl, att. cbn [snd]. rewrite Hh', Hh.
    split; [reflexivity|]. split; [exact Hall|]. split; [exact Hall'|].
    split; [|split].
    + clear -Hall. induction cl as [|ev cl IH]; [reflexivity|].
      cbn in *. apply andb_true_iff in Hall. destruct Hall as [H1 H2].
      rewrite (IH H2). destruct ev; try discriminate; reflexivity.
    + clear -Hall'. induction att as [|ev att IH]; [reflexivity|].
      cbn in *. apply andb_true_iff in Hall'. destruct Hall' as [H1 H2].
      rewrite (IH H2). destruct ev; try discriminate; reflexivity.
    + intros _. apply (Hret tt). reflexivity.
  - exists cl, []. cbn [snd app]. split; [exact Hh|]. split; [exact Hall|].
    split; [reflexivity|]. split; [|split; [reflexivity|congruence]].
    clear -Hall. induction cl as [|ev cl IH]; [reflexivity|].
    cbn in *. apply andb_true_iff in Hall. destruct Hall as [H1 H2].
    rewrite (IH H2). destruct ev; try discriminate; reflexivity.
  - exists cl, []. cbn [snd app]. split; [exact Hh|]. split; [exact Hall|].
    split; [reflexivity|]. split; [|split; [reflexivity|congruence]].
    clear -Hall. induction cl as [|ev cl IH]; [reflexivity|].
    cbn in *. apply andb_true_iff in Hall. destruct Hall as [H1 H2].
    rewrite (IH H2). destruct ev; try discriminate; reflexivity.
Qed.

(** X3.  Whatever the world does, the effects of a run of [_connect] are
    those of its close loop followed by those of its attempts: the exit
    stack is only closed before the first attempt (nothing is closed
    between attempts), and no attempt is made before a close has
    succeeded. *)
Theorem connect_closes_then_attempts (w : world) (fuel : nat) (tries : Z)
    (s : NoBsWs) :
  exists cl att,
    history (snd (_connect w fuel tries s)) = (att ++ cl ++ history s)%list /\
    forallb in_close_loop cl = true /\
    forallb in_attempts att = true /\
    forallb (fun ev => negb (is_open ev)) cl = true /\
    forallb (fun ev => match ev with EvAclose _ => false | _ => true end) att
    = true /\
    (att <> [] -> exists cl', cl = EvAclose None :: cl').
Proof. apply connect_events. Qed.

(** ** Reconnecting until it works *)

Lemma connect_attempts_first_success w c : forall k r i last s,
  opens_after w (clock s) k c ->
  (k < r)%nat ->
  (fixture s = true -> fixture_r (w (clock s + k + 1)%nat) = inr PNone) ->
  connect_attempts w r i last s =
  (Return c,
   mkNoBsWs (url s) (fixture s) (Some c)
            (clock s + k + 1 + (if fixture s then 1 else 0))
            (EvLogInfo ::
             (if fixture s then [EvFixture (inr PNone)] else []) ++
             EvOpen (url s) (inr c) ::
             failed_attempts w (url s) (clock s) i k ++ history s)).
Proof.
  induction k as [|k IH]; intros r i last s [Hfail Hok] Hr Hfx;
    (destruct r as [|r]; [lia|]);
    rewrite connect_attempts_unfold, connect_attempt_unfold; cbn zeta.
  - rewrite Nat.add_0_r in Hok. rewrite Hok.
    destruct (fixture s) eqn:Hf.
    + replace (clock s + 0 + 1)%nat with (S (clock s)) in Hfx by lia.
      rewrite (Hfx eq_refl). cbn. repeat f_equal. lia.
    + cbn. repeat f_equal. lia.
  - destruct (Hfail 0%nat) as (e & He & Hrec); [lia|].
    rewrite Nat.add_0_r in He. rewrite He, Hrec.
    rewrite (IH r (i + 1) (Some e)); cbn [url fixture _ws clock history].
    + cbn [failed_attempts]. rewrite He. cbn [error_of].
      f_equal. f_equal; [lia|].
      f_equal. destruct (fixture s); cbn [app]; rewrite <- app_assoc;
        reflexivity.
    + split.
      * intros j Hj. destruct (Hfail (S j)) as (e' & He' & Hr'); [lia|].
        exists e'. split; [|exact Hr'].
        rewrite <- He'. do 2 f_equal. lia.
      * rewrite <- Hok. do 2 f_equal. lia.
    + lia.
    + intros Hf. rewrite <- (Hfx Hf). do 2 f_equal. lia.
Qed.

(** X1.  [_connect] stops at the first attempt that works: when the
    close loop is through after [kc] retries, [k] attempts (fewer than
    [tries]) fail to open the link with a class of [recon_errors] and the
    next one opens it (and the fixture, if any, yields [None]), it
    returns that connection, has stored it in [_ws], has made [k + 1]
    attempts and has slept 1/2 second after each failed attempt (and
    after each failed close), and at no other point. *)
Theorem connect_returns_at_first_success (w : world) (fuel : nat)
    (tries : Z) (kc k : nat) (s : NoBsWs) (c : conn) :
  closes_after w (clock s) kc ->
  (kc < fuel)%nat ->
  opens_after w (clock s + kc + 1) k c ->
  Z.of_nat k < tries ->
  (fixture s = true ->
   fixture_r (w (clock s + kc + 1 + k + 1)%nat) = inr PNone) ->
  exists s',
    _connect w fuel tries s = (Return c, s') /\
    _ws s' = Some c /\
    history s' =
      (EvLogInfo ::
       (if fixture s then [EvFixture (inr PNone)] else []) ++
       EvOpen (url s) (inr c) ::
       failed_attempts w (url s) (clock s + kc + 1) 0 k ++
       close_events w (clock s) kc ++ history s)%list /\
    attempts (history s') = (attempts (history s) + k + 1)%nat /\
    sleep_durations (history s') =
      (List.repeat (1 # 2)%Q k ++ List.repeat (1 # 2)%Q kc ++
       sleep_durations (history s))%list.
Proof.
  intros Hclose Hfuel Hopen Hk Hfx. unfold _connect, bind.
  rewrite (close_loop_completes w kc fuel s Hclose Hfuel).
  rewrite (connect_attempts_first_success w c k); cbn [url fixture _ws clock history];
    [|exact Hopen|lia|exact Hfx].
  eexists. split; [reflexivity|]. cbn [_ws history]. repeat split.
  - change (attempts (EvLogInfo :: ?l)) with (attempts l).
    rewrite attempts_app.
    change (attempts (EvOpen ?u ?r :: ?l)) with (S (attempts l)).
    rewrite !attempts_app, attempts_failed_attempts, attempts_close_events.
    destruct (fixture s); cbn; lia.
  - change (sleep_durations (EvLogInfo :: ?l)) with (sleep_durations l).
    rewrite sleep_durations_app.
    change (sleep_durations (EvOpen ?u ?r :: ?l)) with (sleep_durations l).
    rewrite !sleep_durations_app, sleep_durations_failed_attempts,
      sleep_durations_close_events.
    destruct (fixture s); reflexivity.
Qed.

Lemma connect_returns_at_first_success_witness :
  exists s',
    _connect third_time_world 1 1000 (fresh_channel false) = (Return 1%nat, s') /\
    _ws s' = Some 1%nat /\
    history s' =
      (EvLogInfo :: [] ++
       EvOpen "wss://example" (inr 1%nat) ::
       failed_attempts third_time_world "wss://example" (0 + 0 + 1) 0 2 ++
       close_events third_time_world 0 0 ++ [])%list /\
    attempts (history s') = (0 + 2 + 1)%nat /\
    sleep_durations (history s') =
      (List.repeat (1 # 2)%Q 2 ++ List.repeat (1 # 2)%Q 0 ++ [])%list.
Proof.
  apply (connect_returns_at_first_success third_time_world 1 1000 0 2
           (fresh_channel false) 1%nat).
  - split; [intros j Hj; lia | reflexivity].
  - lia.
  - split; [|reflexivity].
    intros j Hj. exists HandshakeError.
    destruct j as [|[|j]]; [split; reflexivity | split; reflexivity | lia].
  - lia.
  - discriminate.
Defined.

(** X14.  The fixture must yield [None]: when the link comes up and the
    fixture yields anything else, the [assert] fails and the
    [AssertionError] leaves [_connect] at once, after that single attempt
    and without retry, although the channel already stores the new
    connection. *)
Theorem fixture_must_yield_none (w : world) (fuel : nat) (tries : Z)
    (kc : nat) (s : NoBsWs) (c : conn) (v : pyval) :
  closes_after w (clock s) kc ->
  (kc < fuel)%nat ->
  0 < tries ->
  fixture s = true ->
  open_r (w (clock s + kc + 1)%nat) = inr c ->
  fixture_r (w (S (clock s + kc + 1))) = inr v ->
  v <> PNone ->
  exists s',
    _connect w fuel tries s = (Raise AssertionError, s') /\
    _ws s' = Some c /\
    history s' =
      (EvFixture (inr v) :: EvOpen (url s) (inr c) ::
       close_events w (clock s) kc ++ history s)%list /\
    attempts (history s') = (attempts (history s) + 1)%nat.
Proof.
  intros Hclose Hfuel Htries Hfx Hopen Hfix Hv. unfold _connect, bind.
  rewrite (close_loop_completes w kc fuel s Hclose Hfuel).
  destruct (Z.to_nat tries) as [|r] eqn:Hr; [lia|].
  rewrite connect_attempts_unfold, connect_attempt_unfold. cbn zeta.
  cbn [url fixture _ws clock history]. rewrite Hopen, Hfx, Hfix.
  destruct v; try congruence;
    (eexists; split; [reflexivity|]; cbn [_ws history];
     split; [reflexivity|]; split; [reflexivity|];
     change (attempts (EvFixture ?x :: EvOpen ?u ?y :: ?l))
       with (S (attempts l));
     rewrite attempts_app, attempts_close_events; lia).
Qed.

Lemma fixture_must_yield_none_witness :
  exists s',
    _connect talkative_hook_world 1 1000 (fresh_channel true)
    = (Raise AssertionError, s') /\
    _ws s' = Some 1%nat /\
    history s' =
      (EvFixture (inr (PBool true)) :: EvOpen "wss://example" (inr 1%nat) ::
       close_events talkative_hook_world 0 0 ++ [])%list /\
    attempts (history s') = (0 + 1)%nat.
Proof.
  apply (fixture_must_yield_none talkative_hook_world 1 1000 0
           (fresh_channel true) 1%nat (PBool true));
    try reflexivity; try lia; try discriminate.
  split; [intros j Hj; lia | reflexivity].
Defined.

(** ** The fields of a channel *)

Lemma keeps_refl s : keeps s s.
Proof. unfold keeps. auto. Qed.

Lemma keeps_trans s1 s2 s3 : keeps s1 s2 -> keeps s2 s3 -> keeps s1 s3.
Proof.
  unfold keeps. intros (Hu & Hf & Hw) (Hu' & Hf' & Hw').
  repeat split; [congruence|congruence|auto].
Qed.

Lemma close_loop_keeps w fuel s out s' :
  close_loop w fuel s = (out, s') -> keeps s s'.
Proof.
  intros H. apply close_loop_frame in H. destruct H as (Hu & Hf & Hw).
  unfold keeps. rewrite Hw. auto.
Qed.

Lemma connect_attempt_keeps w s out s1 :
  connect_attempt w s = (out, s1) -> keeps s s1.
Proof.
  rewrite connect_attempt_unfold. cbn zeta. intros H. unfold keeps.
  destruct (open_r (w (clock s))) as [e|c].
  - inversion H; subst. cbn. auto.
  - destruct (fixture s) eqn:Hfx.
    + destruct (fixture_r (w (S (clock s)))) as [e|[]];
        inversion H; subst; cbn; repeat split; auto; discriminate.
    + inversion H; subst. cbn. repeat split; auto; discriminate.
Qed.

Lemma connect_attempts_keeps w : forall r i last s out s',
  connect_attempts w r i last s = (out, s') -> keeps s s'.
Proof.
  induction r as [|r IH]; intros i last s out s' H.
  - rewrite connect_attempts_zero in H. inversion H; subst.
    unfold keeps. cbn. auto.
  - rewrite connect_attempts_unfold in H.
    destruct (connect_attempt w s) as [[c|e|] s1] eqn:Hatt;
      apply connect_attempt_keeps in Hatt.
    + inversion H; subst. exact Hatt.
    + destruct (recon_errors e).
      * apply IH in H. eapply keeps_trans; [exact Hatt|].
        unfold keeps in *. cbn [url fixture _ws] in H. exact H.
      * inversion H; subst. exact Hatt.
    + inversion H; subst. exact Hatt.
Qed.

Lemma connect_keeps w fuel tries s out s' :
  _connect w fuel tries s = (out, s') -> keeps s s'.
Proof.
  unfold _connect, bind. intros H.
  destruct (close_loop w fuel s) as [[[]|e|] s0] eqn:Hclose;
    apply close_loop_keeps in Hclose.
  - apply connect_attempts_keeps in H. eapply keeps_trans; eauto.
  - inversion H; subst. exact Hclose.
  - inversion H; subst. exact Hclose.
Qed.

Lemma retrying_keeps {A} w (op : M A) :
  (forall s out s', op s = (out, s') -> keeps s s') ->
  forall fuel s out s', retrying w op fuel s = (out, s') -> keeps s s'.
Proof.
  intros Hop. induction fuel as [|fuel IH]; intros s out s' H.
  - inversion H; subst. apply keeps_refl.
  - cbn [retrying] in H. unfold try_except, bind in H.
    destruct (op s) as [[a|e|] s1] eqn:Ho; apply Hop in Ho.
    + inversion H; subst. exact Ho.
    + destruct (recon_errors e).
      * destruct (_connect w fuel default_tries s1) as [[c|e1|] s2] eqn:Hc;
          apply connect_keeps in Hc.
        -- apply IH in H. eauto using keeps_trans.
        -- inversion H; subst. eauto using keeps_trans.
        -- inversion H; subst. eauto using keeps_trans.
      * inversion H; subst. exact Ho.
    + inversion H; subst. exact Ho.
Qed.

Lemma ws_send_keeps json w data s out s' :
  ws_send json w data s = (out, s') -> keeps s s'.
Proof.
  rewrite ws_send_unfold. intros H. unfold keeps.
  destruct (_ws s) as [c|] eqn:Hws.
  - destruct (dumps json data) as [e|text].
    + inversion H; subst. rewrite Hws. auto.
    + inversion H; subst. cbn. repeat split; auto; discriminate.
  - inversion H; subst. auto.
Qed.

Lemma ws_recv_keeps json w s out s' :
  ws_recv json w s = (out, s') -> keeps s s'.
Proof.
  rewrite ws_recv_unfold. cbn zeta. intros H. unfold keeps.
  destruct (_ws s) as [c|] eqn:Hws.
  - destruct (get_r (w (clock s))) as [e|text].
    + inversion H; subst. cbn. repeat split; auto; discriminate.
    + destruct (loads json text); inversion H; subst; cbn;
        repeat split; auto; discriminate.
  - inversion H; subst. auto.
Qed.

Lemma used_keeps json w s s' : used json w s s' -> keeps s s'.
Proof.
  induction 1 as [s|s fuel data out s1 s2 Hsend _ IH
                   |s fuel out s1 s2 Hrecv _ IH
                   |s fuel tries out s1 s2 Hconn _ IH].
  - apply keeps_refl.
  - rewrite send_msg_retrying in Hsend.
    apply (retrying_keeps w _ (ws_send_keeps json w data)) in Hsend.
    eauto using keeps_trans.
  - rewrite recv_msg_retrying in Hrecv.
    apply (retrying_keeps w _ (ws_recv_keeps json w)) in Hrecv.
    eauto using keeps_trans.
  - apply connect_keeps in Hconn. eauto using keeps_trans.
Qed.

(** X4.  The channel that [open_autorecon_ws] yields holds the connection
    its first [_connect] returned, and whatever is then done with it
    ([send_msg], [recv_msg], iteration, further reconnects, in any world
    and with any outcome) its url and fixture stay the same and [_ws] is
    never reset to [None]: the underlying send and receive always find a
    connection object to call. *)
Theorem opened_channel_stays_usable (json : json_module) (w : world)
    (fuel : nat) (u : string) (with_fixture : bool) (t : nat)
    (h : list event) (c : conn) (s s' : NoBsWs) :
  open_autorecon_ws w fuel u with_fixture t h = (Return c, s) ->
  used json w s s' ->
  _ws s = Some c /\
  url s' = u /\ fixture s' = with_fixture /\ _ws s' <> None.
Proof.
  unfold open_autorecon_ws. intros Hopen Huse.
  pose proof (connect_keeps _ _ _ _ _ _ Hopen) as (Hu & Hf & _).
  apply connect_return in Hopen. destruct Hopen as [Hws _].
  apply used_keeps in Huse. destruct Huse as (Hu' & Hf' & Hw').
  split; [exact Hws|]. split; [cbn in Hu; congruence|].
  split; [cbn in Hf; congruence|]. apply Hw'. congruence.
Qed.

Lemma opened_channel_stays_usable_witness :
  _ws (snd (open_autorecon_ws quiet_world 1 "wss://example" false 0 [])) =
  Some 1%nat /\
  url (snd (send_msg tiny_json quiet_world 1 PNone
              (snd (open_autorecon_ws quiet_world 1 "wss://example" false 0 []))))
  = "wss://example" /\
  fixture (snd (send_msg tiny_json quiet_world 1 PNone
              (snd (open_autorecon_ws quiet_world 1 "wss://example" false 0 []))))
  = false /\
  _ws (snd (send_msg tiny_json quiet_world 1 PNone
              (snd (open_autorecon_ws quiet_world 1 "wss://example" false 0 []))))
  <> None.
Proof.
  apply (opened_channel_stays_usable tiny_json quiet_world 1 "wss://example"
           false 0 [] 1%nat).
  - reflexivity.
  - eapply (used_send tiny_json quiet_world _ 1 PNone); [|apply used_refl].
    apply surjective_pairing.
Defined.


(** ** What a call puts on the wire and takes from it *)

Lemma forallb_impl {A} (p q : A -> bool) (l : list A) :
  (forall x, p x = true -> q x = true) ->
  forallb p l = true -> forallb q l = true.
Proof.
  intros Hpq. induction l as [|x l IH]; [reflexivity|]. cbn.
  intros H. apply andb_true_iff in H. destruct H as [Hx Hl].
  rewrite (Hpq x Hx), (IH Hl). reflexivity.
Qed.

Lemma connect_events_absorbed (w : world) (fuel : nat) (tries : Z)
    (s : NoBsWs) (q : event -> bool) :
  (forall ev, in_close_loop ev = true -> q ev = true) ->
  (forall ev, in_attempts ev = true -> q ev = true) ->
  exists new,
    history (snd (_connect w fuel tries s)) = (new ++ history s)%list /\
    forallb q new = true.
Proof.
  intros Hcl Hatt.
  destruct (connect_events w fuel tries s) as (cl & att & Hh & Hc & Ha & _).
  exists (att ++ cl)%list. rewrite <- app_assoc. split; [exact Hh|].
  rewrite forallb_app.
  rewrite (forallb_impl _ _ _ Hatt Ha), (forallb_impl _ _ _ Hcl Hc).
  reflexivity.
Qed.

Lemma send_msg_events json w data text :
  dumps json data = inr text ->
  forall fuel s out s',
  send_msg json w fuel data s = (out, s') ->
  exists new,
    history s' = (new ++ history s)%list /\
    (forall u, out = Return u ->
       exists c rest,
         new = EvSend c text None :: rest /\
         forallb (absorbed_send text) rest = true).
Proof.
  intros Hd. induction fuel as [|fuel IH]; intros s out s' H.
  - inversion H; subst. exists []. split; [reflexivity|]. discriminate.
  - cbn [send_msg] in H. unfold try_except in H.
    rewrite ws_send_unfold, Hd in H.
    destruct (_ws s) as [c|].
    2:{ inversion H; subst. exists []. split; [reflexivity|]. discriminate. }
    destruct (send_r (w (clock s))) as [e|] eqn:Hs.
    2:{ inversion H; subst. exists [EvSend c text None].
        split; [reflexivity|]. intros u _. exists c, []. auto. }
    destruct (recon_errors e) eqn:Hrec.
    2:{ inversion H; subst. exists [EvSend c text (Some e)].
        split; [reflexivity|]. discriminate. }
    unfold bind in H.
    match type of H with
    | context [_connect w fuel default_tries ?s1] =>
        destruct (connect_events_absorbed w fuel default_tries s1
                    (absorbed_send text)) as (cn & Hcn & Hall);
          [ intros [] Hev; try discriminate; reflexivity
          | intros [] Hev; try discriminate; reflexivity
          | destruct (_connect w fuel default_tries s1) as [[c1|e1|] s2] ]
    end; cbn [snd history] in Hcn.
    + apply IH in H. destruct H as (new & Hh & Hret).
      exists (new ++ cn ++ [EvSend c text (Some e)])%list.
      rewrite Hh, Hcn, <- !app_assoc. split; [reflexivity|].
      intros u Hu. destruct (Hret u Hu) as (c' & rest & -> & Hrest).
      exists c', (rest ++ cn ++ [EvSend c text (Some e)])%list.
      split; [reflexivity|].
      rewrite !forallb_app, Hrest, Hall. cbn.
      rewrite String.eqb_refl, Hrec. reflexivity.
    + inversion H; subst. exists (cn ++ [EvSend c text (Some e)])%list.
      rewrite Hcn, <- app_assoc. split; [reflexivity|]. discriminate.
    + inversion H; subst. exists (cn ++ [EvSend c text (Some e)])%list.
      rewrite Hcn, <- app_assoc. split; [reflexivity|]. discriminate.
Qed.

(** X5.  A call of [send_msg] that returns has delivered its message
    once: the last thing it did is a successful [send_message] of
    [json.dumps(data)], and every earlier [send_message] of the call
    carried the same text and failed with a class of [recon_errors]; the
    call received nothing. *)
Theorem send_msg_delivers_once (json : json_module) (w : world) (fuel : nat)
    (data : pyval) (text : string) (s s' : NoBsWs) :
  dumps json data = inr text ->
  send_msg json w fuel data s = (Return tt, s') ->
  exists c rest,
    history s' = (EvSend c text None :: rest ++ history s)%list /\
    forallb (absorbed_send text) rest = true.
Proof.
  intros Hd H. apply (send_msg_events json w data text Hd) in H.
  destruct H as (new & Hh & Hret).
  destruct (Hret tt eq_refl) as (c & rest & -> & Hrest).
  exists c, rest. split; [exact Hh|exact Hrest].
Qed.

Lemma send_msg_delivers_once_witness :
  exists c rest,
    history (snd (send_msg tiny_json blip_world 2 PNone (open_channel false))) =
    (EvSend c "null" None :: rest ++ [])%list /\
    forallb (absorbed_send "null") rest = true.
Proof.
  apply (send_msg_delivers_once tiny_json blip_world 2 PNone "null"
           (open_channel false)); [reflexivity|].
  vm_compute. reflexivity.
Defined.

Lemma recv_msg_events json w :
  forall fuel s out s',
  recv_msg json w fuel s = (out, s') ->
  exists new,
    history s' = (new ++ history s)%list /\
    (forall x, out = Return x ->
       exists c wire rest,
         new = EvGet c (inr wire) :: rest /\
         loads json wire = inr x /\
         forallb (absorbed_recv json) rest = true).
Proof.
  induction fuel as [|fuel IH]; intros s out s' H.
  - inversion H; subst. exists []. split; [reflexivity|]. discriminate.
  - cbn [recv_msg] in H. unfold try_except in H.
    rewrite ws_recv_unfold in H. cbn zeta in H.
    destruct (_ws s) as [c|].
    2:{ inversion H; subst. exists []. split; [reflexivity|]. discriminate. }
    assert (Hgo : forall e0,
      recon_errors e0 = true ->
      absorbed_recv json (EvGet c (get_r (w (clock s)))) = true ->
      (_connect w fuel default_tries ;;; recv_msg json w fuel)%py
        (mkNoBsWs (url s) (fixture s) (Some c) (S (clock s))
                  (EvGet c (get_r (w (clock s))) :: history s)) = (out, s') ->
      exists new,
        history s' = (new ++ history s)%list /\
        (forall x, out = Return x ->
           exists c' wire rest,
             new = EvGet c' (inr wire) :: rest /\
             loads json wire = inr x /\
             forallb (absorbed_recv json) rest = true)).
    { intros e0 Hrec Habs Hrun. unfold bind in Hrun.
      match type of Hrun with
      | context [_connect w fuel default_tries ?s1] =>
          destruct (connect_events_absorbed w fuel default_tries s1
                      (absorbed_recv json)) as (cn & Hcn & Hall);
            [ intros [] Hev; try discriminate; reflexivity
            | intros [] Hev; try discriminate; reflexivity
            | destruct (_connect w fuel default_tries s1) as [[c1|e1|] s2] ]
      end; cbn [snd history] in Hcn.
      + apply IH in Hrun. destruct Hrun as (new & Hh & Hret).
        exists (new ++ cn ++ [EvGet c (get_r (w (clock s)))])%list.
        rewrite Hh, Hcn, <- !app_assoc. split; [reflexivity|].
        intros x Hx. destruct (Hret x Hx) as (c' & wire & rest & -> & Hl & Hrest).
        exists c', wire, (rest ++ cn ++ [EvGet c (get_r (w (clock s)))])%list.
        split; [reflexivity|]. split; [exact Hl|].
        rewrite !forallb_app, Hrest, Hall. cbn [forallb].
        rewrite Habs. reflexivity.
      + inversion Hrun; subst.
        exists (cn ++ [EvGet c (get_r (w (clock s)))])%list.
        rewrite Hcn, <- app_assoc. split; [reflexivity|]. discriminate.
      + inversion Hrun; subst.
        exists (cn ++ [EvGet c (get_r (w (clock s)))])%list.
        rewrite Hcn, <- app_assoc. split; [reflexivity|]. discriminate. }
    destruct (get_r (w (clock s))) as [e|wire] eqn:Hg.
    + destruct (recon_errors e) eqn:Hrec.
      * apply (Hgo e Hrec); [cbn; exact Hrec|exact H].
      * inversion H; subst. exists [EvGet c (inl e)].
        split; [reflexivity|]. discriminate.
    + destruct (loads json wire) as [e|x] eqn:Hl.
      * destruct (recon_errors e) eqn:Hrec.
        -- apply (Hgo e Hrec); [cbn; rewrite Hl; exact Hrec|exact H].
        -- inversion H; subst. exists [EvGet c (inr wire)].
           split; [reflexivity|]. discriminate.
      * inversion H; subst. exists [EvGet c (inr wire)].
        split; [reflexivity|]. intros x0 Hx0. inversion Hx0; subst.
        exists c, wire, []. auto.
Qed.

(** X6.  A call of [recv_msg] that returns [x] hands over the message it
    took last, decoded, and has dropped no message that could be
    decoded: every earlier [get_message] of the call failed with a class
    of [recon_errors], or yielded a text that [json.loads] rejected with
    such a class; the call sent nothing.  And a text that [json.loads]
    rejects with any other error ends the call with that error, the
    message being lost and no reconnect made. *)
Theorem recv_msg_drops_nothing (json : json_module) (w : world) (fuel : nat)
    (s : NoBsWs) :
  (forall x s',
     recv_msg json w fuel s = (Return x, s') ->
     exists c wire rest,
       history s' = (EvGet c (inr wire) :: rest ++ history s)%list /\
       loads json wire = inr x /\
       forallb (absorbed_recv json) rest = true) /\
  (forall c wire e,
     _ws s = Some c -> get_r (w (clock s)) = inr wire ->
     loads json wire = inl e -> recon_errors e = false ->
     recv_msg json w (S fuel) s =
     (Raise e,
      mkNoBsWs (url s) (fixture s) (Some c) (S (clock s))
               (EvGet c (inr wire) :: history s))).
Proof.
  split.
  - intros x s' H. apply recv_msg_events in H.
    destruct H as (new & Hh & Hret).
    destruct (Hret x eq_refl) as (c & wire & rest & -> & Hl & Hrest).
    exists c, wire, rest. auto.
  - intros c wire e Hws Hg Hl Hrec. cbn [recv_msg]. unfold try_except.
    rewrite ws_recv_unfold. cbn zeta. rewrite Hws, Hg, Hl, Hrec. reflexivity.
Qed.


(** Text that is not JSON ends [recv_msg] with the decoding error. *)
Example recv_msg_garbage :
  recv_msg tiny_json garbage_world 1 (open_channel false) =
  (Raise (OtherError "JSONDecodeError"),
   mkNoBsWs "wss://example" false (Some 0%nat) 1
            [EvGet 0%nat (inr "<html>")]).
Proof. reflexivity. Qed.

(** ** A link that drops, and one that stays down *)

(** X7.  A link that drops and comes back is not noticed by the caller:
    when the send fails with a class of [recon_errors], the close loop
    is through after [kc] retries and the link reopens at the first
    attempt (the channel has no fixture), [send_msg] returns, having sent
    the same text again on the new connection. *)
Theorem send_msg_survives_a_drop (json : json_module) (w : world)
    (fuel kc : nat) (data : pyval) (text : string) (s : NoBsWs)
    (c c' : conn) (e : exn) :
  _ws s = Some c ->
  fixture s = false ->
  dumps json data = inr text ->
  send_r (w (clock s)) = Some e ->
  recon_errors e = true ->
  closes_after w (S (clock s)) kc ->
  (kc < fuel)%nat ->
  open_r (w (clock s + kc + 2)%nat) = inr c' ->
  send_r (w (clock s + kc + 3)%nat) = None ->
  exists s',
    send_msg json w (S (S fuel)) data s = (Return tt, s') /\
    _ws s' = Some c' /\
    history s' =
      (EvSend c' text None :: EvLogInfo :: EvOpen (url s) (inr c') ::
       close_events w (S (clock s)) kc ++
       EvSend c text (Some e) :: history s)%list.
Proof.
  intros Hws Hfx Hd Hs Hrec Hclose Hfuel Hopen Hs'.
  cbn [send_msg]. unfold try_except at 1.
  rewrite ws_send_unfold, Hws, Hd, Hs, Hrec.
  unfold bind at 1. unfold _connect, bind.
  rewrite (close_loop_completes w kc (S fuel)); cbn [url fixture _ws clock history];
    [|exact Hclose|lia].
  rewrite (connect_attempts_first_success w c' 0);
    cbn [url fixture _ws clock history].
  - rewrite Hfx. unfold try_except.
    rewrite ws_send_unfold. cbn [url fixture _ws clock history].
    rewrite Hd.
    replace (S (clock s) + kc + 1 + 0 + 1 + 0)%nat with (clock s + kc + 3)%nat
      by lia.
    rewrite Hs'. eexists. split; [reflexivity|]. cbn. split; reflexivity.
  - split; [intros j Hj; lia|].
    rewrite <- Hopen. do 2 f_equal. lia.
  - unfold default_tries. lia.
  - rewrite Hfx. discriminate.
Qed.

Lemma send_msg_survives_a_drop_witness :
  exists s',
    send_msg tiny_json blip_world 3 PNone (open_channel false) = (Return tt, s') /\
    _ws s' = Some 1%nat /\
    history s' =
      (EvSend 1%nat "null" None :: EvLogInfo ::
       EvOpen "wss://example" (inr 1%nat) ::
       close_events blip_world 1 0 ++
       EvSend 0%nat "null" (Some ConnectionClosed) :: [])%list.
Proof.
  apply (send_msg_survives_a_drop tiny_json blip_world 1 0 PNone "null"
           (open_channel false) 0%nat 1%nat ConnectionClosed);
    try reflexivity.
  - split; [intros j Hj; lia | reflexivity].
  - lia.
Defined.

Lemma failed_attempts_last w u : forall n t i,
  failed_attempts w u t i (S n) =
  EvSleep half_second ::
  EvLogError (i + Z.of_nat n) (error_of (open_r (w (t + n)%nat))) ::
  EvOpen u (open_r (w (t + n)%nat)) :: failed_attempts w u t i n.
Proof.
  induction n as [|n IH]; intros t i.
  - cbn. rewrite Nat.add_0_r, Z.add_0_r. reflexivity.
  - change (failed_attempts w u t i (S (S n)))
      with (failed_attempts w u (S t) (i + 1) (S n) ++
            [EvSleep half_second; EvLogError i (error_of (open_r (w t)));
             EvOpen u (open_r (w t))])%list.
    rewrite IH. cbn [failed_attempts app].
    replace (S t + n)%nat with (t + S n)%nat by lia.
    replace (i + 1 + Z.of_nat n) with (i + Z.of_nat (S n)) by lia.
    reflexivity.
Qed.

Lemma connect_all_fail w fuel tries kc s :
  0 < tries ->
  (forall t, exists e', open_r (w t) = inl e' /\ recon_errors e' = true) ->
  closes_after w (clock s) kc ->
  (kc < fuel)%nat ->
  exists e' s',
    _connect w fuel tries s = (Raise e', s') /\
    recon_errors e' = true /\
    exhausted e' (history s') /\
    attempts (history s') = (attempts (history s) + Z.to_nat tries)%nat /\
    sleep_durations (history s') =
      (List.repeat (1 # 2)%Q (Z.to_nat tries) ++ List.repeat (1 # 2)%Q kc ++
       sleep_durations (history s))%list /\
    _ws s' = _ws s.
Proof.
  intros Htries Hdown Hclose Hfuel. unfold _connect, bind.
  rewrite (close_loop_completes w kc fuel s Hclose Hfuel).
  rewrite (connect_attempts_all_fail w Hdown).
  cbn [url fixture _ws clock history].
  destruct (Z.to_nat tries) as [|r] eqn:Hr; [lia|].
  destruct (Hdown (clock s + kc + 1 + r)%nat) as (e' & He' & Hrec').
  exists e'. eexists. split.
  { f_equal. f_equal. unfold final_error. rewrite He'. reflexivity. }
  cbn [history _ws]. split; [exact Hrec'|]. split; [|split; [|split]].
  - unfold exhausted. rewrite failed_attempts_last, He'. cbn [error_of app].
    eexists _, _. reflexivity.
  - change (attempts (EvLogException :: ?l)) with (attempts l).
    rewrite !attempts_app, attempts_failed_attempts, attempts_close_events.
    lia.
  - change (sleep_durations (EvLogException :: ?l)) with (sleep_durations l).
    rewrite !sleep_durations_app, sleep_durations_failed_attempts,
      sleep_durations_close_events.
    reflexivity.
  - reflexivity.
Qed.

(** X8.  On a link that stays down, a send fails for good only after the
    whole budget: when the send fails with a class of [recon_errors] and
    then every attempt to reopen the link does, [send_msg] raises the
    error of the last of exactly 1000 attempts, each followed by a sleep
    of 1/2 second (as is each failed close, and nothing else), and the
    channel keeps its old connection object. *)
Theorem send_msg_on_dead_link (json : json_module) (w : world)
    (fuel kc : nat) (data : pyval) (text : string) (s : NoBsWs)
    (c : conn) (e : exn) :
  _ws s = Some c ->
  dumps json data = inr text ->
  send_r (w (clock s)) = Some e ->
  recon_errors e = true ->
  closes_after w (S (clock s)) kc ->
  (kc < fuel)%nat ->
  (forall t, exists e', open_r (w t) = inl e' /\ recon_errors e' = true) ->
  exists e' s',
    send_msg json w (S fuel) data s = (Raise e', s') /\
    recon_errors e' = true /\
    exhausted e' (history s') /\
    attempts (history s') = (attempts (history s) + Z.to_nat 1000)%nat /\
    sleep_durations (history s') =
      (List.repeat (1 # 2)%Q (Z.to_nat 1000) ++ List.repeat (1 # 2)%Q kc ++
       sleep_durations (history s))%list /\
    _ws s' = Some c.
Proof.
  intros Hws Hd Hs Hrec Hclose Hfuel Hdown.
  cbn [send_msg]. unfold try_except.
  rewrite ws_send_unfold, Hws, Hd, Hs, Hrec.
  unfold bind at 1.
  match goal with
  | |- context [_connect w fuel default_tries ?s1] =>
      destruct (connect_all_fail w fuel default_tries kc s1)
        as (e' & s' & Hrun & Hrec' & Hex & Hatt & Hsl & Hws');
        [reflexivity | exact Hdown | exact Hclose | exact Hfuel |]
  end.
  rewrite Hrun. exists e', s'. split; [reflexivity|].
  cbn [history _ws] in Hatt, Hsl, Hws'.
  change (attempts (EvSend ?a ?b ?r :: ?l)) with (attempts l) in Hatt.
  change (sleep_durations (EvSend ?a ?b ?r :: ?l))
    with (sleep_durations l) in Hsl.
  auto.
Qed.

Lemma send_msg_on_dead_link_witness :
  exists e' s',
    send_msg tiny_json down_world 2 PNone (open_channel false) = (Raise e', s') /\
    recon_errors e' = true /\
    exhausted e' (history s') /\
    attempts (history s') =
      (attempts (history (open_channel false)) + Z.to_nat 1000)%nat /\
    sleep_durations (history s') =
      (List.repeat (1 # 2)%Q (Z.to_nat 1000) ++ List.repeat (1 # 2)%Q 0 ++
       sleep_durations (history (open_channel false)))%list /\
    _ws s' = Some 0%nat.
Proof.
  apply (send_msg_on_dead_link tiny_json down_world 1 0 PNone "null"
           (open_channel false) 0%nat ConnectionClosed).
  - reflexivity.
  - reflexivity.
  - reflexivity.
  - reflexivity.
  - split; [intros j Hj; lia | reflexivity].
  - lia.
  - intros t. exists ConnectionClosed. split; reflexivity.
Defined.

End AutoreconFacts.

(* ===================================================================== *)
(** * More facts about sessions *)
(* ===================================================================== *)

Module JsonRpcUseFacts.
Import JsonRpc JsonRpcUse JsonRpcFacts.

Section UseFacts.

Variable json : json_module.
Variable dtype : pyval -> exn + JSONRPCResult.
Variable dumps_msg : JSONRPCResult -> exn + string.

Lemma run_app : forall acts1 acts2 st,
  run json dtype dumps_msg (acts1 ++ acts2) st =
  match run json dtype dumps_msg acts1 st with
  | Some st1 => run json dtype dumps_msg acts2 st1
  | None => None
  end.
Proof.
  induction acts1 as [|a acts1 IH]; intros acts2 st; [reflexivity|].
  cbn [app run]. destruct (step json dtype dumps_msg a st); [apply IH|reflexivity].
Qed.

(** An invariant of single steps is an invariant of schedules. *)
Lemma run_invariant (P : session -> Prop) :
  (forall a st st', step json dtype dumps_msg a st = Some st' -> P st -> P st') ->
  forall acts st st',
    run json dtype dumps_msg acts st = Some st' -> P st -> P st'.
Proof.
  intros Hstep. induction acts as [|a acts IH]; intros st st' Hrun HP;
    cbn in Hrun.
  - inversion Hrun; subst. exact HP.
  - destruct (step json dtype dumps_msg a st) as [st1|] eqn:Hs; [|discriminate].
    eapply IH; [exact Hrun|]. eapply Hstep; eauto.
Qed.

(** The session a call leaves when it suspends or fails to send. *)
Lemma call_state method params sending st :
  let st' := snd (json_rpc_wait (rpc_id st) sending
                    (snd (json_rpc_request method params st))) in
  rpc_id st' = rpc_id st + 1 /\
  rpc_results st' = <[rpc_id st := mkSlot None false]> (rpc_results st) /\
  (forall i, i ∈ waiting st' -> i ∈ waiting st \/ i = rpc_id st) /\
  (forall i, i ∈ waiting st -> i ∈ waiting st') /\
  (forall u, sending = Return u -> rpc_id st ∈ waiting st') /\
  (forall u, sending <> Return u -> waiting st' = waiting st).
Proof.
  unfold json_rpc_wait, json_rpc_request. cbn [snd rpc_results].
  rewrite lookup_insert_eq.
  destruct sending as [[]|e|]; cbn [snd rpc_id rpc_results waiting].
  - repeat split; auto.
    + intros i Hi. apply elem_of_union in Hi. destruct Hi as [Hi|Hi]; auto.
      apply elem_of_singleton in Hi. auto.
    + intros i Hi. apply elem_of_union. auto.
    + intros u _. apply elem_of_union. left. apply elem_of_singleton.
      reflexivity.
    + intros [] Hu. congruence.
  - repeat split; auto. intros u Hu. discriminate.
  - repeat split; auto. intros u Hu. discriminate.
Qed.

Lemma step_call method params sending st :
  step json dtype dumps_msg (ACall method params sending) st =
  Some (snd (json_rpc_wait (rpc_id st) sending
               (snd (json_rpc_request method params st)))).
Proof. reflexivity. Qed.

Lemma step_slots_answered a st st' :
  step json dtype dumps_msg a st = Some st' ->
  slots_answered st -> slots_answered st'.
Proof.
  unfold slots_answered. intros Hstep Hinv.
  destruct a as [method params sending|frame|_id]; cbn in Hstep.
  - inversion Hstep; subst; clear Hstep.
    pose proof (call_state method params sending st) as (_ & Hres & _).
    cbn zeta in Hres. unfold json_rpc_request in *. cbn [snd] in *.
    rewrite Hres. intros i sl Hl.
    destruct (decide (i = rpc_id st)) as [->|Hne].
    + rewrite lookup_insert_eq in Hl. inversion Hl; subst. cbn.
      split; [discriminate|intros msg Hm; discriminate].
    + rewrite lookup_insert_ne in Hl by congruence. eauto.
  - destruct (recv_task_step dtype dumps_msg frame st) as [[[]|e|] st1] eqn:Hr;
      try discriminate.
    inversion Hstep; subst; clear Hstep.
    apply recv_task_step_return in Hr.
    destruct Hr as (msg & _ & _ & _ & _ & Hres).
    rewrite Hres. intros i sl Hl.
    destruct (decide (i = id msg)) as [->|Hne].
    + rewrite lookup_insert_eq in Hl. inversion Hl; subst. cbn.
      split; [eauto|]. intros m Hm. congruence.
    + rewrite lookup_insert_ne in Hl by congruence. eauto.
  - destruct (woken st _id) eqn:Hwoken; [|discriminate].
    inversion Hstep; subst; clear Hstep.
    apply woken_has_slot in Hwoken. destruct Hwoken as (_ & sl0 & Hl0 & _).
    rewrite (json_rpc_resume_state _ _ _ _ Hl0). cbn. intros i sl Hl.
    destruct (decide (i = _id)) as [->|Hne].
    + rewrite lookup_delete_eq in Hl. discriminate.
    + rewrite lookup_delete_ne in Hl by congruence. eauto.
Qed.

(** X9.  Responses reach the call they answer: in any state a session
    can reach, a suspended call whose event is set finds in its slot a
    response carrying its own id, and ends by that response (returned, or
    raised when it has an [error]); it never fails on a missing slot or
    an empty result. *)
Theorem call_ends_by_its_own_response (start_id : Z) (acts : list action)
    (st : session) (i : Z) :
  run json dtype dumps_msg acts (open_jsonrpc_session start_id) = Some st ->
  woken st i = true ->
  exists sl msg,
    rpc_results st !! i = Some sl /\
    slot_result sl = Some msg /\
    id msg = i /\
    fst (json_rpc_resume json i st) = ending json msg.
Proof.
  intros Hrun Hwoken.
  apply (run_invariant slots_answered step_slots_answered) in Hrun.
  2:{ intros j sl Hl. cbn in Hl. rewrite lookup_empty in Hl. discriminate. }
  apply woken_has_slot in Hwoken. destruct Hwoken as (_ & sl & Hl & Hev).
  destruct (Hrun i sl Hl) as [Hsome Hid].
  destruct (Hsome Hev) as [msg Hmsg].
  exists sl, msg. split; [exact Hl|]. split; [exact Hmsg|].
  split; [apply Hid; exact Hmsg|].
  unfold json_rpc_resume, ending. rewrite Hl, Hmsg.
  destruct (error msg); try reflexivity;
    destruct (dumps_indent4 json _); reflexivity.
Qed.

(** ** A call whose request could not be sent *)

Lemma step_waiters_below_counter a st st' :
  step json dtype dumps_msg a st = Some st' ->
  waiters_below_counter st -> waiters_below_counter st'.
Proof.
  unfold waiters_below_counter. intros Hstep Hinv.
  destruct a as [method params sending|frame|_id]; cbn in Hstep.
  - inversion Hstep; subst; clear Hstep.
    pose proof (call_state method params sending st) as (Hid & _ & Hw & _).
    cbn zeta in *. unfold json_rpc_request in *. cbn [snd] in *.
    rewrite Hid. intros i Hi. destruct (Hw i Hi) as [Hold| ->]; [|lia].
    apply Hinv in Hold. lia.
  - destruct (recv_task_step dtype dumps_msg frame st) as [[[]|e|] st1] eqn:Hr;
      try discriminate.
    inversion Hstep; subst; clear Hstep.
    apply recv_task_step_return in Hr.
    destruct Hr as (msg & _ & Hid & _ & Hw & _).
    rewrite Hid, Hw. exact Hinv.
  - destruct (woken st _id) eqn:Hwoken; [|discriminate].
    inversion Hstep; subst; clear Hstep.
    apply woken_has_slot in Hwoken. destruct Hwoken as (_ & sl0 & Hl0 & _).
    rewrite (json_rpc_resume_state _ _ _ _ Hl0). cbn. intros i Hi.
    apply Hinv. apply elem_of_difference in Hi. tauto.
Qed.

Lemma step_orphaned i a st st' :
  step json dtype dumps_msg a st = Some st' ->
  orphaned i st -> orphaned i st'.
Proof.
  unfold orphaned. intros Hstep (Hsome & Hnw & Hlt).
  destruct a as [method params sending|frame|_id]; cbn in Hstep.
  - inversion Hstep; subst; clear Hstep.
    pose proof (call_state method params sending st) as (Hid & Hres & Hw & _).
    cbn zeta in *. unfold json_rpc_request in *. cbn [snd] in *.
    rewrite Hid, Hres. repeat split.
    + rewrite lookup_insert_ne by lia. exact Hsome.
    + intros Hi. destruct (Hw i Hi) as [Hold| ->]; [auto|lia].
    + lia.
  - destruct (recv_task_step dtype dumps_msg frame st) as [[[]|e|] st1] eqn:Hr;
      try discriminate.
    inversion Hstep; subst; clear Hstep.
    apply recv_task_step_return in Hr.
    destruct Hr as (msg & _ & Hid & _ & Hw & Hres).
    rewrite Hid, Hw, Hres. repeat split; auto.
    destruct (decide (i = id msg)) as [->|Hne].
    + rewrite lookup_insert_eq. eauto.
    + rewrite lookup_insert_ne by congruence. exact Hsome.
  - destruct (woken st _id) eqn:Hwoken; [|discriminate].
    inversion Hstep; subst; clear Hstep.
    apply woken_has_slot in Hwoken. destruct Hwoken as (Hin & sl0 & Hl0 & _).
    rewrite (json_rpc_resume_state _ _ _ _ Hl0). cbn. repeat split; auto.
    + rewrite lookup_delete_ne; [exact Hsome|]. intros ->. auto.
    + intros Hi. apply elem_of_difference in Hi. tauto.
Qed.

(** X10.  A call whose request could not be sent (the channel raised, or
    is still trying) leaves its slot behind for the rest of the session:
    whatever the session does afterwards, the slot registered under that
    call's id is still in the mapping, and the call is not among the
    suspended ones, so nothing will ever delete it. *)
Theorem unsent_call_leaves_its_slot (start_id : Z) (before after : list action)
    (method : string) (params : pyval) (sending : outcome unit)
    (st : session) :
  sending <> Return tt ->
  run json dtype dumps_msg (before ++ ACall method params sending :: after)
      (open_jsonrpc_session start_id) = Some st ->
  let i := start_id + Z.of_nat (length (calls_of before)) in
  is_Some (rpc_results st !! i) /\ (i ∉ waiting st) /\ woken st i = false.
Proof.
  intros Hfail Hrun i. rewrite run_app in Hrun.
  destruct (run json dtype dumps_msg before (open_jsonrpc_session start_id))
    as [st0|] eqn:Hbefore; [|discriminate].
  pose proof (run_sent json dtype dumps_msg _ _ _ Hbefore) as [_ Hid].
  cbn [rpc_id open_jsonrpc_session] in Hid.
  pose proof (run_invariant waiters_below_counter step_waiters_below_counter
                _ _ _ Hbefore) as Hbelow.
  assert (Hw0 : waiters_below_counter st0).
  { apply Hbelow. intros j Hj. cbn in Hj. set_solver. }
  clear Hbelow. cbn [run step] in Hrun.
  unfold json_rpc_request in Hrun at 1. cbn [fst snd] in Hrun.
  pose proof (call_state method params sending st0)
    as (Hid1 & Hres1 & _ & _ & _ & Hsame).
  cbn zeta in *. unfold json_rpc_request in *. cbn [snd] in *.
  match type of Hrun with
  | run _ _ _ after ?st1 = _ =>
      assert (Horph : orphaned i st1)
  end.
  { unfold orphaned. rewrite Hid1, Hres1. subst i. rewrite <- Hid.
    split; [rewrite lookup_insert_eq; eauto|]. split; [|lia].
    rewrite (Hsame tt) by (destruct sending as [[]|?|]; congruence).
    intros Hin. apply Hw0 in Hin. lia. }
  apply (run_invariant (orphaned i) (step_orphaned i) _ _ _ Hrun) in Horph.
  destruct Horph as (Hsome & Hnw & _). split; [exact Hsome|].
  split; [exact Hnw|].
  unfold woken. rewrite bool_decide_eq_false_2 by exact Hnw. reflexivity.
Qed.

End UseFacts.

Lemma call_ends_by_its_own_response_witness :
  exists sl msg,
    rpc_results
      (mkSession (0 + 1)
         (<[0 := mkSlot (Some (mkResult "2.0" 0 (PDict [("ok", PBool true)]) PNone))
                        true]>
            (<[0 := mkSlot None false]> ∅))
         ({[0]} ∪ ∅) [request_frame 0 "ping" PNone] []) !! 0 = Some sl /\
    slot_result sl = Some msg /\
    id msg = 0 /\
    fst (json_rpc_resume tiny_json 0
           (mkSession (0 + 1)
              (<[0 := mkSlot (Some (mkResult "2.0" 0
                                     (PDict [("ok", PBool true)]) PNone))
                             true]>
                 (<[0 := mkSlot None false]> ∅))
              ({[0]} ∪ ∅) [request_frame 0 "ping" PNone] []))
    = ending tiny_json msg.
Proof.
  apply (call_ends_by_its_own_response tiny_json JSONRPCResult_init
           dumps_msg_fails 0 [ACall "ping" PNone (Return tt); ARecv ok_frame]).
  - cbn. unfold recv_task_step, setdefault, json_rpc_wait. cbn.
    rewrite !lookup_insert_eq. cbn. rewrite !lookup_insert_eq. reflexivity.
  - unfold woken. cbn [rpc_results waiting].
    rewrite lookup_insert_eq.
    rewrite bool_decide_eq_true_2 by set_solver. reflexivity.
Defined.

Lemma unsent_call_leaves_its_slot_witness :
  exists st,
    run tiny_json JSONRPCResult_init dumps_msg_fails
        ([ACall "ping" PNone (Return tt)] ++
         ACall "pong" PNone (Raise ConnectionClosed) ::
         [ARecv ok_frame; AResume 0])
        (open_jsonrpc_session 0) = Some st /\
    is_Some (rpc_results st !! (0 + Z.of_nat 1)) /\
    ((0 + Z.of_nat 1) ∉ waiting st) /\
    woken st (0 + Z.of_nat 1) = false.
Proof.
  destruct (run tiny_json JSONRPCResult_init dumps_msg_fails
              ([ACall "ping" PNone (Return tt)] ++
               ACall "pong" PNone (Raise ConnectionClosed) ::
               [ARecv ok_frame; AResume 0])
              (open_jsonrpc_session 0)) as [st|] eqn:Hrun.
  - exists st. split; [reflexivity|].
    apply (unsent_call_leaves_its_slot tiny_json JSONRPCResult_init
             dumps_msg_fails 0 [ACall "ping" PNone (Return tt)]
             [ARecv ok_frame; AResume 0] "pong" PNone
             (Raise ConnectionClosed) st);
      [discriminate | exact Hrun].
  - vm_compute in Hrun. discriminate.
Defined.

End JsonRpcUseFacts.

(* ===================================================================== *)
(** * Facts about the command line and the chart *)
(* ===================================================================== *)

Module CliFacts.
Import Cli.

(** ** [str.partition] at the first ['='] *)

Lemma partition_eq_found s :
  contains_eq s = true ->
  exists key value,
    partition_eq s = (key, "=", value) /\
    s = key ++ "=" ++ value /\
    contains_eq key = false.
Proof.
  induction s as [|c s IH]; [discriminate|]. cbn.
  destruct (Ascii.eqb c "="%char) eqn:Hc.
  - intros _. apply Ascii.eqb_eq in Hc. subst c.
    exists EmptyString, s. auto.
  - cbn. intros H. destruct (IH H) as (key & value & Hp & Hs & Hk).
    rewrite Hp. exists (String c key), value.
    split; [reflexivity|]. split.
    + rewrite Hs at 1. reflexivity.
    + cbn. rewrite Hc, Hk. reflexivity.
Qed.

Lemma partition_eq_build key value :
  contains_eq key = false ->
  contains_eq (key ++ "=" ++ value) = true /\
  partition_eq (key ++ "=" ++ value) = (key, "=", value).
Proof.
  induction key as [|c key IH].
  - intros _. split; reflexivity.
  - change (String c key ++ "=" ++ value)
      with (String c (key ++ "=" ++ value)).
    cbn [contains_eq partition_eq].
    destruct (Ascii.eqb c "="%char); [discriminate|]. cbn [orb].
    intros H. destruct (IH H) as [Hc Hp]. rewrite Hp. auto.
Qed.

(** ** The keyword arguments of [api] *)

Lemma api_kwargs_step_errors acc kwarg :
  rev (snd (api_kwargs_step acc kwarg)) =
  (rev (snd acc) ++
   List.filter (fun a => negb (contains_eq a)) [kwarg])%list.
Proof.
  unfold api_kwargs_step. cbn [List.filter].
  destruct (contains_eq kwarg); cbn.
  - destruct (partition_eq kwarg) as [[key sep] value]. cbn.
    rewrite app_nil_r. reflexivity.
  - reflexivity.
Qed.

Lemma foldl_api_kwargs_errors : forall kwargs acc,
  rev (snd (foldl api_kwargs_step acc kwargs)) =
  (rev (snd acc) ++ List.filter (fun a => negb (contains_eq a)) kwargs)%list.
Proof.
  induction kwargs as [|a kwargs IH]; intros acc; cbn [foldl].
  - cbn. rewrite app_nil_r. reflexivity.
  - rewrite IH, api_kwargs_step_errors. cbn [List.filter].
    destruct (negb (contains_eq a)); cbn; rewrite <- ?app_assoc;
      rewrite ?app_nil_r; reflexivity.
Qed.

Lemma foldl_api_kwargs_sound : forall kwargs acc k v,
  fst (foldl api_kwargs_step acc kwargs) !! k = Some v ->
  fst acc !! k = Some v \/
  (contains_eq k = false /\ In (k ++ "=" ++ v) kwargs).
Proof.
  induction kwargs as [|a kwargs IH]; intros acc k v H; cbn [foldl] in H.
  - auto.
  - apply IH in H. destruct H as [H|[Hk Hin]]; [|right; split; [exact Hk|right; exact Hin]].
    unfold api_kwargs_step in H.
    destruct (contains_eq a) eqn:Ha; cbn in H; [|auto].
    destruct (partition_eq_found a Ha) as (key & value & Hp & Hs & Hkey).
    rewrite Hp in H. cbn in H.
    destruct (decide (key = k)) as [->|Hne].
    + rewrite lookup_insert_eq in H. inversion H; subst value.
      right. split; [exact Hkey|]. left. exact Hs.
    + rewrite lookup_insert_ne in H by exact Hne. auto.
Qed.

Lemma foldl_api_kwargs_keeps : forall kwargs acc k v,
  fst acc !! k = Some v ->
  (forall a, In a kwargs -> contains_eq a = true -> key_of a <> k) ->
  fst (foldl api_kwargs_step acc kwargs) !! k = Some v.
Proof.
  induction kwargs as [|a kwargs IH]; intros acc k v H Hother; cbn [foldl].
  - exact H.
  - apply IH; [|intros b Hb; apply Hother; right; exact Hb].
    unfold api_kwargs_step.
    destruct (contains_eq a) eqn:Ha; cbn; [|exact H].
    pose proof (Hother a (or_introl eq_refl) Ha) as Hne. unfold key_of in Hne.
    destruct (partition_eq a) as [[key sep] value]. cbn in *.
    rewrite lookup_insert_ne by exact Hne. exact H.
Qed.

(** X12.  The keyword arguments [api] passes on are read off the command
    line as follows: an argument without ['='] is reported by
    [log.error] (in the order given) and sets nothing; every entry [k: v]
    of the dict comes from an argument [k=v], split at its first ['='], so
    that no key contains a ['='] while a value may; and when several
    arguments set the same key the last one wins. *)
Theorem api_kwargs_from_arguments (kwargs : list string) :
  rev (snd (api_kwargs kwargs)) =
    List.filter (fun a => negb (contains_eq a)) kwargs /\
  (forall k v,
     fst (api_kwargs kwargs) !! k = Some v ->
     contains_eq k = false /\ In (k ++ "=" ++ v) kwargs) /\
  (forall (before after : list string) (k v : string),
     kwargs = (before ++ (k ++ "=" ++ v)%string :: after)%list ->
     contains_eq k = false ->
     (forall a, In a after -> contains_eq a = true -> key_of a <> k) ->
     fst (api_kwargs kwargs) !! k = Some v).
Proof.
  unfold api_kwargs. split; [|split].
  - rewrite foldl_api_kwargs_errors. reflexivity.
  - intros k v H. apply foldl_api_kwargs_sound in H.
    destruct H as [H|H]; [|exact H].
    cbn in H. rewrite lookup_empty in H. discriminate.
  - intros before after k v -> Hk Hlast.
    rewrite foldl_app. cbn [foldl].
    apply foldl_api_kwargs_keeps; [|exact Hlast].
    unfold api_kwargs_step.
    destruct (partition_eq_build k v Hk) as [Hc Hp].
    rewrite Hc, Hp. cbn. apply lookup_insert_eq.
Qed.

End CliFacts.

Module ChartFacts.
Import Chart.

Lemma bars_range_bounds l r len :
  0 <= len ->
  let '(l', lbar, rbar, r') := bars_range l r len in
  l' = l /\ r' = r /\ 0 <= lbar /\ l <= lbar /\ rbar <= len /\ rbar <= r.
Proof. intros Hlen. unfold bars_range. cbn. lia. Qed.

Lemma py_slice_in_range {A} (lo hi : Z) (a : list A) :
  0 <= lo -> 0 <= hi -> hi <= Z.of_nat (length a) ->
  py_slice lo hi a = firstn (Z.to_nat (hi - lo)) (skipn (Z.to_nat lo) a).
Proof.
  intros Hlo Hhi Hlen. unfold py_slice, slice_bound.
  destruct (lo <? 0) eqn:H1; [lia|]. destruct (hi <? 0) eqn:H2; [lia|].
  rewrite (Z.min_l hi) by lia.
  destruct (Z.le_gt_cases lo (Z.of_nat (length a))) as [Hle|Hgt].
  - rewrite (Z.min_l lo) by lia. reflexivity.
  - rewrite (Z.min_r lo) by lia.
    rewrite !skipn_all2 by lia. rewrite !firstn_nil. reflexivity.
Qed.

(** X13.  [_set_yrange] never reaches its [breakpoint()]: the left bar is
    clipped at 0 by [bars_range].  When the view ends at or after bar 0,
    the bars it rescales on are exactly those of the array whose index
    lies in the view, and it returns early (no data) exactly when there
    is none.  When the view lies entirely left of bar 0 ([r < 0]) and the
    array has more than [-r] bars, the negative right bound counts from
    the end of the array: it rescales on the first [len + r] bars, none
    of which is in view. *)
Theorem set_yrange_bars {A} (l r : Z) (_array : list A) :
  snd (_set_yrange l r _array) <> Breakpoint /\
  (0 <= r ->
   snd (_set_yrange l r _array) =
     (if Z.min r (Z.of_nat (length _array)) <=? Z.max l 0 then NoData
      else Rescale
             (firstn (Z.to_nat (Z.min r (Z.of_nat (length _array)) - Z.max l 0))
                     (skipn (Z.to_nat (Z.max l 0)) _array))) /\
   (forall j x,
      firstn (Z.to_nat (Z.min r (Z.of_nat (length _array)) - Z.max l 0))
             (skipn (Z.to_nat (Z.max l 0)) _array) !! j = Some x ->
      _array !! (Z.to_nat (Z.max l 0) + j)%nat = Some x /\
      l <= Z.max l 0 + Z.of_nat j < r)) /\
  (l <= r -> r < 0 -> 0 < Z.of_nat (length _array) + r ->
   snd (_set_yrange l r _array) =
     Rescale (firstn (Z.to_nat (Z.of_nat (length _array) + r)) _array)).
Proof.
  unfold _set_yrange, bars_range. cbn [snd].
  set (len := Z.of_nat (length _array)).
  set (lbar := Z.max l 0). set (rbar := Z.min r len).
  split; [|split].
  - destruct (_ =? 0)%nat; [discriminate|].
    destruct (lbar <? 0) eqn:Hneg; [lia|discriminate].
  - intros Hr.
    rewrite (py_slice_in_range lbar rbar _array) by lia.
    set (bars := firstn (Z.to_nat (rbar - lbar)) (skipn (Z.to_nat lbar) _array)).
    assert (Hlenb : length bars =
                    Nat.min (Z.to_nat (rbar - lbar))
                            (length _array - Z.to_nat lbar)).
    { unfold bars. rewrite length_firstn, length_skipn. reflexivity. }
    split.
    + destruct (rbar <=? lbar) eqn:Hcmp.
      * replace (length bars =? 0)%nat with true; [reflexivity|].
        symmetry. apply Nat.eqb_eq. lia.
      * replace (length bars =? 0)%nat with false.
        -- destruct (lbar <? 0) eqn:Hneg; [lia|reflexivity].
        -- symmetry. apply Nat.eqb_neq. lia.
    + intros j x Hj. fold (take (Z.to_nat (rbar - lbar))
                             (drop (Z.to_nat lbar) _array)) in Hj.
      apply lookup_take_Some in Hj. destruct Hj as [Hj Hlt].
      rewrite lookup_drop in Hj. split; [exact Hj|]. lia.
  - intros Hlr Hr Hlen. unfold py_slice, slice_bound. fold len.
    destruct (lbar <? 0) eqn:H1; [lia|].
    destruct (rbar <? 0) eqn:H2; [|lia].
    replace (Z.min lbar len) with 0 by lia.
    replace (Z.max (rbar + len) 0 - 0) with (len + r) by lia.
    change (Z.to_nat 0) with 0%nat. change (skipn 0 _array) with _array.
    set (bars := firstn (Z.to_nat (len + r)) _array).
    assert (Hlenb : length bars = Z.to_nat (len + r)).
    { unfold bars. rewrite length_firstn. lia. }
    replace (length bars =? 0)%nat with false; [reflexivity|].
    symmetry. apply Nat.eqb_neq. lia.
Qed.

End ChartFacts.
